(** * Active-variable domains and maps: a model of [active_subspaces/domains.py]

    The module builds the domain of the active variables of an active
    subspace (an interval or a zonotope), maps points between the full space
    and the active/inactive coordinates, and samples inactive coordinates by
    a random walk constrained to the hypercube.

    Numbers.  numpy's dense float arrays are modelled over the canonical
    rationals [Qc]: arithmetic is exact, equality is Leibniz equality and
    every comparison computes.  Rounding, NaN and infinities are outside the
    model; what is proved holds for the exact-arithmetic reading of the code.

    Arrays.  A 1-D array (and a column of shape (k,1)) is a list; a 2-D array
    is a record of its shape and its rows, so that arrays with no row keep
    their number of columns, as numpy's do.

    Effects.  Exceptions are the [Raise] results of [result]; code that draws
    random numbers or emits warnings runs in the monad [py] over a [world]. *)

From Stdlib Require Import QArith Qcanon Lqa ZArith Lia List Bool.
From stdpp Require Import base option list numbers.

Local Open Scope Qc_scope.

(** ** Exceptions and results *)

Inductive exn : Type :=
  | TypeError
  | ValueError
  | IndexError
  | RecursionError
  | NotImplementedError
  | LinprogError
  | QhullError.

Inductive result (A : Type) : Type :=
  | Ok (a : A)
  | Raise (e : exn).

Arguments Ok {A} a.
Arguments Raise {A} e.

#[global] Instance result_ret : MRet result := fun A a => Ok a.

#[global] Instance result_bind : MBind result := fun A B f r =>
  match r with
  | Ok a => f a
  | Raise e => Raise e
  end.

(** [for i in range(n): acc = body(i, acc)], stopping at the first raise. *)
Fixpoint for_range_from {A : Type} (i n : nat) (body : nat -> A -> result A)
    (acc : A) : result A :=
  match n with
  | O => Ok acc
  | S n' => acc' ← body i acc; for_range_from (S i) n' body acc'
  end.

Definition for_range {A : Type} (n : nat) (body : nat -> A -> result A)
    (acc : A) : result A :=
  for_range_from 0 n body acc.

(** ** numpy arrays *)

Abbreviation vec := (list Qc).

Record array2 : Type := Arr2 {
  shape0 : nat;
  shape1 : nat;
  rows : list vec
}.

(** The arrays numpy can build: the rows agree with the recorded shape. *)
Definition wf2 (A : array2) : Prop :=
  length (rows A) = shape0 A /\ Forall (fun r => length r = shape1 A) (rows A).

Definition np_zeros (k : nat) : vec := replicate k 0.

Definition np_zeros2 (m n : nat) : array2 := Arr2 m n (replicate m (np_zeros n)).

(** [A[i, j]] for in-range non-negative indices; [IndexError] otherwise. *)
Definition getitem2 (A : array2) (i j : nat) : result Qc :=
  match rows A !! i with
  | Some r =>
      match r !! j with
      | Some v => Ok v
      | None => Raise IndexError
      end
  | None => Raise IndexError
  end.

(** [A[i, j] = v], in place. *)
Definition setitem2 (A : array2) (i j : nat) (v : Qc) : result array2 :=
  match rows A !! i with
  | Some r =>
      if decide (j < length r)%nat
      then Ok (Arr2 (shape0 A) (shape1 A) (<[i := <[j := v]> r]> (rows A)))
      else Raise IndexError
  | None => Raise IndexError
  end.

(** ** [nzv]: the number of zonotope vertices

    [nzv(m, n, M=None)] fills the table [M] by the recurrence and returns
    [(k, M)].  The Python recursion is on [(m, n)] lexicographically; the
    model counts the depth of the recursion with [fuel], and [nzv] supplies
    [m + n], which the recursion never exhausts (see [nzv_rec_spec]).
    For [m, n >= 1] the indices [m-1] and [n-1] are not negative, as at every
    call the recursion makes. *)

Fixpoint nzv_rec (fuel m n : nat) (M : array2) : result (Qc * array2) :=
  match fuel with
  | O => Raise RecursionError
  | S fuel' =>
      M ← (if decide (m = 1 \/ n = 1)%nat
           then setitem2 M (m - 1) (n - 1) 2
           else
             v ← getitem2 M (m - 1) (n - 1);
             if decide (v = 0)
             then
               '(k1, M) ← nzv_rec fuel' (m - 1) (n - 1) M;
               '(k2, M) ← nzv_rec fuel' (m - 1) n M;
               M ← setitem2 M (m - 1) (n - 1) (k1 + k2);
               for_range (n - 1)
                 (fun i M => '(_, M) ← nzv_rec fuel' m (i + 1) M; Ok M) M
             else Ok M);
      k ← getitem2 M (m - 1) (n - 1);
      Ok (k, M)
  end.

Definition nzv (m n : nat) (M : option array2) : result (Qc * array2) :=
  nzv_rec (m + n) m n (default (np_zeros2 m n) M).

(** The recurrence as the specification words it: [count(m, n)]. *)
Fixpoint count (m n : nat) : Z :=
  match m with
  | O => 2
  | S m' =>
      if decide (m' = 0 \/ n = 1)%nat then 2%Z
      else (count m' (n - 1) + count m' n)%Z
  end.


(** ** Element-wise and linear-algebra operations of numpy *)

(** [np.sign]: -1, 0 or 1; zero is mapped to zero. *)
Definition np_sign (x : Qc) : Qc :=
  match x ?= 0 with
  | Lt => - 1
  | Eq => 0
  | Gt => 1
  end.

Definition np_abs (x : Qc) : Qc := if decide (x < 0) then - x else x.

Definition vneg (v : vec) : vec := map Qcopp v.
Definition vadd (u v : vec) : vec := zip_with Qcplus u v.
Definition vscale (a : Qc) (v : vec) : vec := map (Qcmult a) v.
(** [a - v] and [v + a] for a scalar [a], broadcast over [v]. *)
Definition scalar_minus (a : Qc) (v : vec) : vec := map (fun x => a - x) v.
Definition plus_scalar (v : vec) (a : Qc) : vec := map (fun x => x + a) v.

Definition vsum (v : vec) : Qc := foldr Qcplus 0 v.

(** The inner product of two 1-D arrays. *)
Definition dot (u v : vec) : Qc := vsum (zip_with Qcmult u v).

(** Element-wise comparisons and [np.all]. *)
Definition np_le (u v : vec) : list bool := zip_with (fun a b => bool_decide (a <= b)) u v.
Definition np_ge (u v : vec) : list bool := zip_with (fun a b => bool_decide (b <= a)) u v.
Definition np_lt (u v : vec) : list bool := zip_with (fun a b => bool_decide (a < b)) u v.
Definition np_eq (u v : vec) : list bool := zip_with (fun a b => bool_decide (a = b)) u v.
Definition np_all (bs : list bool) : bool := forallb id bs.

(** [A[:, j]]. *)
Definition column (j : nat) (A : array2) : vec := map (fun r => nth j r 0) (rows A).

(** [A.T]. *)
Definition transpose (A : array2) : array2 :=
  Arr2 (shape1 A) (shape0 A) (map (fun j => column j A) (seq 0 (shape1 A))).

(** [np.dot] on two 2-D arrays, on a 2-D and a 1-D array, on a 1-D and a 2-D
    array.  numpy raises when the inner dimensions differ; the model is for
    arrays whose shapes agree. *)
Definition np_dot (A B : array2) : array2 :=
  Arr2 (shape0 A) (shape1 B)
    (map (fun a => map (fun j => dot a (column j B)) (seq 0 (shape1 B))) (rows A)).

Definition np_dot_mv (A : array2) (v : vec) : vec := map (fun a => dot a v) (rows A).

Definition np_dot_vm (v : vec) (A : array2) : vec :=
  map (fun j => dot v (column j A)) (seq 0 (shape1 A)).

Definition map2 (f : Qc -> Qc) (A : array2) : array2 :=
  Arr2 (shape0 A) (shape1 A) (map (map f) (rows A)).

(** The elements in C order, and [reshape] to [r] rows of [c] elements. *)
Definition ravel (A : array2) : vec := concat (rows A).

Fixpoint chunks (r c : nat) (l : vec) : list vec :=
  match r with
  | O => []
  | S r' => take c l :: chunks r' c (drop c l)
  end.

Definition reshape2 (r c : nat) (l : vec) : array2 := Arr2 r c (chunks r c l).

(** [A[i]] of a 2-D array: row [i], or [IndexError]. *)
Definition getrow (A : array2) (i : nat) : result vec :=
  match rows A !! i with
  | Some r => Ok r
  | None => Raise IndexError
  end.

(** The truth value of an array in an [if]: that of its only element; an
    array of several elements has none ([ValueError]), an empty one is false. *)
Definition truth (bs : list bool) : result bool :=
  match bs with
  | [] => Ok false
  | [b] => Ok b
  | _ => Raise ValueError
  end.

(** ** [interval_endpoints] *)

Definition interval_endpoints (W1 : array2) : result (array2 * array2) :=
  let m := shape0 W1 in
  y0 ← getrow (np_dot (transpose W1) (map2 np_sign W1)) 0;
  b ← truth (np_lt y0 (vneg y0));
  let '(yl, yu, xl, xu) :=
    if b : bool
    then (y0, vneg y0, map2 np_sign W1, map2 Qcopp (map2 np_sign W1))
    else (vneg y0, y0, map2 Qcopp (map2 np_sign W1), map2 np_sign W1) in
  let Y := reshape2 2 1 (yl ++ yu) in
  let X := Arr2 2 m (rows (reshape2 1 m (ravel xl)) ++ rows (reshape2 1 m (ravel xu))) in
  Ok (Y, X).

(** Example inputs. *)
Definition col_of (v : vec) : array2 := Arr2 (length v) 1 (map (fun x => [x]) v).

Definition W1_ones : array2 := col_of [1; 1].
Definition W1_tie : array2 := col_of [0; 1].
Definition W1_mixed : array2 := col_of [Q2Qc (3 # 5); - Q2Qc (4 # 5)].

(** ** What the module takes from outside

    numpy's global random generator and its Euclidean norm, scipy's
    [ConvexHull] (of which only [.equations] is read), and the repository's
    [utils.qp_solver.QPSolver.linear_program_eq] and
    [utils.utils.process_inputs], whose sources are not part of this file's
    subject.  [np_random_normal k g] is [np.random.normal(size=k)] run on the
    generator state [g]: it returns [k] numbers and the next state. *)

Class External : Type := {
  rng : Type;
  np_random_normal : nat -> rng -> vec * rng;
  np_random_normal_length : forall k g, length (np_random_normal k g).1 = k;
  np_linalg_norm : vec -> Qc;
  linear_program_eq : vec -> array2 -> vec -> vec -> vec -> result vec;
  ConvexHull_equations : array2 -> result array2;
  process_inputs : array2 -> result (array2 * nat * nat)
}.

(** A warning of the [warnings] module: the message of line 32 with its two
    numbers. *)
Inductive warning : Type :=
  | VertexCountWarning (numverts : Qc) (found : nat).

Section Effects.
Context `{External}.

(** The state a call can change: the generator and the warnings emitted. *)
Record world : Type := World {
  generator : rng;
  warnings_log : list warning
}.

(** A computation that may raise; the world it leaves is kept either way. *)
Definition py (A : Type) : Type := world -> result A * world.

Definition py_ret {A : Type} (a : A) : py A := fun w => (Ok a, w).

Definition py_bind {A B : Type} (c : py A) (f : A -> py B) : py B :=
  fun w =>
    match c w with
    | (Ok a, w') => f a w'
    | (Raise e, w') => (Raise e, w')
    end.

Definition raise {A : Type} (e : exn) : py A := fun w => (Raise e, w).

Definition lift {A : Type} (r : result A) : py A := fun w => (r, w).

Definition normal (k : nat) : py vec :=
  fun w =>
    let '(v, g) := np_random_normal k (generator w) in
    (Ok v, World g (warnings_log w)).

Definition warn (x : warning) : py unit :=
  fun w => (Ok tt, World (generator w) (warnings_log w ++ [x])).

End Effects.

#[global] Instance py_mret `{External} : MRet py := @py_ret _.
#[global] Instance py_mbind `{External} : MBind py := fun A B f c => py_bind c f.

Section Sampling.
Context `{External}.

(** [for i in range(n)] in [py], from index [i]. *)
Fixpoint py_for_from {A : Type} (i n : nat) (body : nat -> A -> py A) (acc : A)
    : py A :=
  match n with
  | O => mret acc
  | S n' => acc' ← body i acc; py_for_from (S i) n' body acc'
  end.

Definition py_for {A : Type} (n : nat) (body : nat -> A -> py A) (acc : A) : py A :=
  py_for_from 0 n body acc.

(** [[f(x) for x in xs]] in [py]. *)
Fixpoint py_map {A B : Type} (f : A -> py B) (xs : list A) : py (list B) :=
  match xs with
  | [] => mret []
  | x :: xs' => b ← f x; bs ← py_map f xs'; mret (b :: bs)
  end.

Definition np_ones (k : nat) : vec := replicate k 1.

Definition np_minimum (a b : Qc) : Qc := if decide (a <= b) then a else b.

(** [np.zeros((r, N))] for a Python integer [N]: negative dimensions are
    not allowed. *)
Definition np_zeros2_int (r : nat) (N : Z) : result array2 :=
  if decide (N < 0)%Z then Raise ValueError else Ok (np_zeros2 r (Z.to_nat N)).

(** [A[:, i] = v]. *)
Definition setcol (A : array2) (i : nat) (v : vec) : array2 :=
  Arr2 (shape0 A) (shape1 A) (zip_with (fun r x => <[i := x]> r) (rows A) v).

(** ** [sample_z] *)

(** The test of lines 161 and 168:
    [np.all(np.dot(W2, zc) <= 1-s) and np.all(np.dot(W2, zc) >= -1-s)]. *)
Definition inside (W2 : array2) (s zc : vec) : bool :=
  np_all (np_le (np_dot_mv W2 zc) (scalar_minus 1 s)) &&
  np_all (np_ge (np_dot_mv W2 zc) (scalar_minus (- 1) s)).

(** The three lines both loops share: draw the candidate and move to it when
    it passes the test. *)
Definition proposal (sig : Qc) (W2 : array2) (s z0 : vec) : py vec :=
  e ← normal (length z0);
  let zc := vadd z0 (vscale sig e) in
  mret (if inside W2 s zc then zc else z0).

(** The test of line 144:
    [np.all(np.zeros((m,1)) <= 1-s) and np.all(np.zeros((m,1)) >= -1-s)]. *)
Definition origin_inside (m : nat) (s : vec) : bool :=
  np_all (np_le (np_zeros m) (scalar_minus 1 s)) &&
  np_all (np_ge (np_zeros m) (scalar_minus (- 1) s)).

(** Lines 143-151: the starting point. *)
Definition seed (y : vec) (W1 W2 : array2) : result vec :=
  let m := shape0 W1 in
  let n := shape1 W1 in
  let s := np_dot_mv W1 y in
  if origin_inside m s
  then Ok (np_zeros (m - n))
  else
    let lb := vneg (np_ones m) in
    let ub := np_ones m in
    let c := np_zeros m in
    x0 ← linear_program_eq c (transpose W1) y lb ub;
    Ok (np_dot_mv (transpose W2) x0).

(** Lines 154-156: the step size. *)
Definition step_size (W2 : array2) (s z0 : vec) : Qc :=
  Q2Qc (1 # 10) *
  np_minimum
    (np_linalg_norm (plus_scalar (vadd (np_dot_mv W2 z0) s) (- 1)))
    (np_linalg_norm (plus_scalar (vadd (np_dot_mv W2 z0) s) 1)).

Definition sample_z (N : Z) (y : vec) (W1 W2 : array2) : py array2 :=
  let m := shape0 W1 in
  let n := shape1 W1 in
  let s := np_dot_mv W1 y in
  z0 ← lift (seed y W1 W2);
  let sig := step_size W2 s z0 in
  (* burn in *)
  z0 ← py_for (Z.to_nat (10 * N)) (fun _ z0 => proposal sig W2 s z0) z0;
  (* sample *)
  Z ← lift (np_zeros2_int (m - n) N);
  '(_, Z) ← py_for (Z.to_nat N)
              (fun i '(z0, Z) =>
                 z0 ← proposal sig W2 s z0;
                 mret (z0, setcol Z i z0))
              (z0, Z);
  mret Z.

(** In the specification's words: [z] is feasible for [y] when
    [-1 <= W1·y + W2·z <= 1] in every component. *)
Definition feasible (W1 W2 : array2) (y z : vec) : Prop :=
  Forall (fun t => - 1 <= t /\ t <= 1) (vadd (np_dot_mv W1 y) (np_dot_mv W2 z)).

#[global] Instance feasible_dec W1 W2 y z : Decision (feasible W1 W2 y z).
Proof. unfold feasible. apply _. Defined.

(** One step of the walk as the specification words it: the candidate
    [z + sig * Normal(0, I)] replaces [z] exactly when it is feasible. *)
Definition walk_step (sig : Qc) (W1 W2 : array2) (y : vec) (st : vec * rng)
    : vec * rng :=
  let '(z, g) := st in
  let '(e, g') := np_random_normal (length z) g in
  let cand := vadd z (vscale sig e) in
  (if decide (feasible W1 W2 y cand) then cand else z, g').

(** The state of the walk after [k] steps. *)
Definition chain (sig : Qc) (W1 W2 : array2) (y : vec) (k : nat)
    (st : vec * rng) : vec * rng :=
  Nat.iter k (walk_step sig W1 W2 y) st.

End Sampling.

(** ** [zonotope_vertices] *)

Section Vertices.
Context `{External}.

(** The inner loop of lines 127-131: is [x] already in [Xlist]? *)
Definition seen (x : vec) (Xlist : list vec) : bool :=
  existsb (fun xx => np_all (np_eq x xx)) Xlist.

Definition zonotope_vertices (W1 : array2) (NY : nat) : py (array2 * array2) :=
  let m := shape0 W1 in
  let n := shape1 W1 in
  '(Xlist, nzv) ← py_for NY
      (fun _ '(Xlist, nzv) =>
         y ← normal n;
         let x := map np_sign (np_dot_vm y (transpose W1)) in
         let addx := negb (seen x Xlist) in
         mret (if addx then (Xlist ++ [x], S nzv) else (Xlist, nzv)))
      ([], O);
  let X := reshape2 nzv m (concat Xlist) in
  let Y := reshape2 nzv n (ravel (np_dot X W1)) in
  mret (Y, X).

(** The default of the parameter [NY]. *)
Definition default_NY : nat := Z.to_nat 10000.

End Vertices.

(** ** 3-D arrays and [rotate_x] *)

Record array3 : Type := Arr3 {
  dim0 : nat;
  dim1 : nat;
  dim2 : nat;
  planes : list (list vec)
}.

Definition wf3 (A : array3) : Prop :=
  length (planes A) = dim0 A /\
  Forall (fun p => length p = dim1 A /\ Forall (fun r => length r = dim2 A) p)
    (planes A).

(** [np.tile(Y.reshape((NY, n, 1)), (1, 1, N))]. *)
Definition tile_last (Y : array2) (N : nat) : array3 :=
  Arr3 (shape0 Y) (shape1 Y) N (map (map (replicate N)) (rows Y)).

(** [np.concatenate((A, B), axis=1)]. *)
Definition concatenate1 (A B : array3) : array3 :=
  Arr3 (dim0 A) (dim1 A + dim1 B) (dim2 A) (zip_with app (planes A) (planes B)).

(** [A.transpose((1, 0, 2))]. *)
Definition transpose102 (A : array3) : array3 :=
  Arr3 (dim1 A) (dim0 A) (dim2 A)
    (map (fun j => map (fun p => nth j p []) (planes A)) (seq 0 (dim1 A))).

Definition ravel3 (A : array3) : vec := concat (map (fun p => concat p) (planes A)).

Definition reshape3 (a b c : nat) (l : vec) : array3 :=
  Arr3 a b c (map (chunks b c) (chunks a (b * c) l)).

Definition np_arange (k : nat) : vec := map (fun i => Qc_of_Z (Z.of_nat i)) (seq 0 k).

(** [np.kron] of two 1-D arrays. *)
Definition np_kron (a b : vec) : vec := flat_map (fun x => map (Qcmult x) b) a.

Definition rotate_x (Y : array2) (Z : array3) (W : array2) : array2 * array2 :=
  let NY := shape0 Y in
  let n := shape1 Y in
  let N := dim2 Z in
  let m := (n + dim1 Z)%nat in
  let YY := tile_last Y N in
  let YZ := transpose
              (reshape2 m (N * NY) (ravel3 (transpose102 (concatenate1 YY Z)))) in
  let X := reshape2 (N * NY) m (ravel (np_dot YZ (transpose W))) in
  let ind := reshape2 (N * NY) 1 (np_kron (np_arange NY) (replicate N 1)) in
  (X, ind).

(** ** The domain and map classes *)

(** The [subspaces] object: of it the module reads [W1], [W2] and
    [eigenvectors]. *)
Record subspaces : Type := Subspaces {
  W1 : array2;
  W2 : array2;
  eigenvectors : array2
}.

(** The dictionary built at lines 37-39: ['fun'] is [A·x - b], ['jac'] is [A]. *)
Record constraint : Type := Ineq {
  con_A : array2;
  con_b : vec
}.

Definition con_fun (c : constraint) (x : vec) : vec :=
  zip_with Qcminus (np_dot_mv (con_A c) x) (con_b c).

Definition con_jac (c : constraint) (x : vec) : array2 := con_A c.

(** A [ConvexHull] object, as far as the module reads it. *)
Record hull : Type := Hull {
  equations : array2
}.

Record domain : Type := Domain {
  dom_subspaces : subspaces;
  dom_m : nat;
  dom_n : nat;
  vertY : option array2;
  vertX : option array2;
  convhull : option hull;
  constraints : option constraint
}.

(** [E[:, :n]] and [E[:, n]]. *)
Definition cols_before (n : nat) (E : array2) : array2 :=
  Arr2 (shape0 E) (n `min` shape1 E) (map (take n) (rows E)).

Definition getcol (E : array2) (n : nat) : result vec :=
  if decide (n < shape1 E)%nat then Ok (column n E) else Raise IndexError.

Inductive pyobj : Type :=
  | PyInt (z : Z)
  | PyBool (b : bool)
  | PyFloat (q : Qc)
  | PyStr (s : list nat)
  | PyNone.

Inductive map_class : Type :=
  | ActiveVariableMap
  | BoundedActiveVariableMap
  | UnboundedActiveVariableMap.

Section Classes.
Context `{External}.

Definition UnboundedActiveVariableDomain (S : subspaces) : domain :=
  Domain S (shape0 (W1 S)) (shape1 (W1 S)) None None None None.

Definition BoundedActiveVariableDomain (S : subspaces) : py domain :=
  let W1 := W1 S in
  let m := shape0 W1 in
  let n := shape1 W1 in
  '(Y, X, convhull, constraints) ←
    (if decide (n = 1%nat)
     then
       '(Y, X) ← lift (interval_endpoints W1);
       mret (Y, X, None, None)
     else
       '(Y, X) ← zonotope_vertices W1 default_NY;
       '(numverts, _) ← lift (nzv m n None);
       _ ← (if decide (Qc_of_Z (Z.of_nat (shape0 Y)) <> numverts)
            then warn (VertexCountWarning numverts (shape0 Y))
            else mret tt);
       E ← lift (ConvexHull_equations Y);
       let A := cols_before n E in
       b ← lift (getcol E n);
       mret (Y, X, Some (Hull E), Some (Ineq A b)));
  mret (Domain S m n (Some Y) (Some X) convhull constraints).

Definition forward (D : domain) (X : array2) : result (array2 * array2) :=
  '(X, _, _) ← process_inputs X;
  Ok (np_dot X (W1 (dom_subspaces D)), np_dot X (W2 (dom_subspaces D))).

(** [regularize_z] of the three classes. *)
Definition regularize_z (cls : map_class) (D : domain) (Y : array2) (N : Z)
    : py array3 :=
  match cls with
  | ActiveVariableMap => raise NotImplementedError
  | BoundedActiveVariableMap =>
      let W1 := W1 (dom_subspaces D) in
      let W2 := W2 (dom_subspaces D) in
      let m := shape0 W1 in
      let n := shape1 W1 in
      let NY := shape0 Y in
      Zlist ← py_map (fun y => sample_z N y W1 W2) (rows Y);
      if decide (N < 0)%Z then raise ValueError
      else mret (Arr3 NY (m - n) (Z.to_nat N) (map rows Zlist))
  | UnboundedActiveVariableMap =>
      let m := shape0 (W1 (dom_subspaces D)) in
      let n := shape1 (W1 (dom_subspaces D)) in
      let NY := shape0 Y in
      if decide (N < 0)%Z then raise ValueError
      else
        v ← normal (NY * (m - n) * Z.to_nat N);
        mret (reshape3 NY (m - n) (Z.to_nat N) v)
  end.

(** [inverse(self, Y, N=1)]. *)
Definition inverse (cls : map_class) (D : domain) (Y : array2)
    (N : option pyobj) : py (array2 * array2) :=
  let N := default (PyInt 1) N in
  (* check inputs *)
  '(Y, _, _) ← lift (process_inputs Y);
  match N with
  | PyInt N =>
      Z ← regularize_z cls D Y N;
      let W := eigenvectors (dom_subspaces D) in
      mret (rotate_x Y Z W)
  | _ => raise TypeError
  end.

End Classes.

(** ** A stand-in for the outside, to run the model on examples

    The generator is a position in a fixed sequence of small rationals, the
    norm is the sum of absolute values, no solver is linked, the hull is the
    bounding box of the points, and [process_inputs] accepts every 2-D array. *)

Definition toy_noise (t : nat) : Qc :=
  Qc_of_Z ((Z.of_nat t * 5 + 2) mod 7 - 3) * Q2Qc (1 # 2).

Definition toy_normal (k g : nat) : vec * nat := (map toy_noise (seq g k), (g + k)%nat).

Definition toy_norm (v : vec) : Qc := vsum (map np_abs v).

Definition unit_vec (n j : nat) (a : Qc) : vec :=
  map (fun i => if decide (i = j) then a else 0) (seq 0 n).

Definition vmax (v : vec) : Qc := foldr (fun a b => if decide (a <= b) then b else a) 0 v.

Definition toy_hull (Y : array2) : result array2 :=
  let n := shape1 Y in
  if decide (shape0 Y <= n)%nat then Raise QhullError
  else Ok (Arr2 (2 * n) (n + 1)
             (flat_map
                (fun j =>
                   [unit_vec n j 1 ++ [- vmax (column j Y)];
                    unit_vec n j (- 1) ++ [- vmax (vneg (column j Y))]])
                (seq 0 n))).

Lemma toy_normal_length (k g : nat) : length (toy_normal k g).1 = k.
Proof. unfold toy_normal; simpl. by rewrite length_map, length_seq. Qed.

#[global] Instance toy_external : External := {|
  rng := nat;
  np_random_normal := toy_normal;
  np_random_normal_length := toy_normal_length;
  np_linalg_norm := toy_norm;
  linear_program_eq := fun _ _ _ _ _ => Raise LinprogError;
  ConvexHull_equations := toy_hull;
  process_inputs := fun X => Ok (X, shape0 X, shape1 X)
|}.

(** Two orthonormal directions of the plane, and the identity of size 3. *)
Definition W_plane : array2 :=
  Arr2 2 2 [[Q2Qc (3 # 5); - Q2Qc (4 # 5)]; [Q2Qc (4 # 5); Q2Qc (3 # 5)]].

Definition S_plane : subspaces :=
  Subspaces (col_of [Q2Qc (3 # 5); Q2Qc (4 # 5)])
            (col_of [- Q2Qc (4 # 5); Q2Qc (3 # 5)])
            W_plane.

Definition eye3 : array2 := Arr2 3 3 [[1; 0; 0]; [0; 1; 0]; [0; 0; 1]].

Definition S_eye3 : subspaces :=
  Subspaces (Arr2 3 2 [[1; 0]; [0; 1]; [0; 0]]) (col_of [0; 0; 1]) eye3.

Definition world0 : world := World (0%nat : @rng toy_external) [].

(** ** Sign vectors *)

(** The values [np.sign] takes. *)
Definition sign_value (c : Qc) : Prop := c = - 1 \/ c = 0 \/ c = 1.

(** A sign vector of [W1]: the signs of the projection of some direction. *)
Definition sign_vector_of (W1 : array2) (x : vec) : Prop :=
  exists yv : vec,
    length yv = shape1 W1 /\ x = map np_sign (np_dot_vm yv (transpose W1)).

(** ** The row index of [rotate_x], as the specification words it *)

(** Each row number [0 .. NY-1], [N] times, rows in order. *)
Definition row_index (NY N : nat) : vec :=
  flat_map (fun r => replicate N (Qc_of_Z (Z.of_nat r))) (seq 0 NY).

(** Two active-variable points on the plane, one per row. *)
Definition Y_two : array2 := Arr2 2 1 [[Q2Qc (1 # 2)]; [0]].

(** [type(N) is int]. *)
Definition is_int (N : pyobj) : bool :=
  match N with
  | PyInt _ => true
  | _ => false
  end.

(** ** Orthogonal matrices *)

Definition np_eye (m : nat) : array2 :=
  Arr2 m m
    (map (fun i => map (fun j => if decide (i = j) then 1 else 0) (seq 0 m))
       (seq 0 m)).

(** [np.hstack((A, B))]: the columns of [A], then those of [B]. *)
Definition np_hstack (A B : array2) : array2 :=
  Arr2 (shape0 A) (shape1 A + shape1 B) (zip_with app (rows A) (rows B)).

(** A square [W] with [Wᵗ·W = I]. *)
Definition orthogonal (W : array2) : Prop :=
  shape0 W = shape1 W /\ np_dot (transpose W) W = np_eye (shape1 W).

(** The active and inactive coordinates of row [r] and draw [k]: [Y[r]]
    followed by [Z[r, :, k]]. *)
Definition draw (Z : array3) (r k : nat) : vec :=
  map (fun zrow => nth k zrow 0) (nth r (planes Z) []).

#[global] Instance array2_eq_dec : EqDecision array2.
Proof. solve_decision. Defined.

(** Two draws of the inactive coordinate for each of the two rows. *)
Definition Z_two : array3 :=
  Arr3 2 1 2 [[[Q2Qc (1 # 4); - Q2Qc (1 # 3)]]; [[0; Q2Qc (2 # 7)]]].

(** ** The directions a run of [zonotope_vertices] draws *)

(** [k] successive results of [np.random.normal(size=n)] from the generator
    state [g], and the state they leave. *)
Fixpoint directions `{External} (n k : nat) (g : rng) : list vec * rng :=
  match k with
  | O => ([], g)
  | S k' =>
      let '(y, g') := np_random_normal n g in
      let '(ys, g'') := directions n k' g' in
      (y :: ys, g'')
  end.

(** The sign vector computed at line 126 for the direction [yv]. *)
Definition sign_of (W1 : array2) (yv : vec) : vec :=
  map np_sign (np_dot_vm yv (transpose W1)).

(** ** The arrays stacked by the bounded map *)

Section Stacked.
Context `{External}.

(** What [sample_z] returned for the row [y]: an array of the announced
    shape whose columns are states of the walk started at the seed. *)
Definition sampled (N : nat) (S : subspaces) (y : vec) (Zy : array2) : Prop :=
  wf2 Zy /\
  shape0 Zy = (shape0 (W1 S) - shape1 (W1 S))%nat /\ shape1 Zy = N /\
  exists z0, seed y (W1 S) (W2 S) = Ok z0 /\
    forall i, (i < N)%nat ->
      exists k g,
        column i Zy =
          (chain (step_size (W2 S) (np_dot_mv (W1 S) y) z0)
             (W1 S) (W2 S) y k (z0, g)).1.

End Stacked.

(** * Properties *)

(** ** Results and loops *)

Lemma bind_Ok {A B : Type} (f : A -> result B) (a : A) : (Ok a ≫= f) = f a.
Proof. reflexivity. Qed.

Lemma bind_Ok_inv {A B : Type} (f : A -> result B) (r : result A) (b : B) :
  (r ≫= f) = Ok b -> exists a, r = Ok a /\ f a = Ok b.
Proof. destruct r as [a|e]; [eauto | discriminate]. Qed.

(** A loop whose body keeps an invariant and never raises on it runs to the
    end and keeps the invariant. *)
Lemma for_range_from_inv {A : Type} (P : A -> Prop) (body : nat -> A -> result A) :
  forall n i acc,
    P acc ->
    (forall j a, (i <= j < i + n)%nat -> P a -> exists a', body j a = Ok a' /\ P a') ->
    exists acc', for_range_from i n body acc = Ok acc' /\ P acc'.
Proof.
  induction n as [|n IH]; intros i acc Hacc Hbody; simpl.
  - eauto.
  - destruct (Hbody i acc) as (a' & -> & Ha'); [lia | done |].
    rewrite bind_Ok. apply IH; [done |].
    intros j a Hj. apply Hbody. lia.
Qed.

(** ** Reading and writing table cells *)

Lemma wf2_zeros m n : wf2 (np_zeros2 m n).
Proof.
  split; simpl.
  - by rewrite length_replicate.
  - apply Forall_replicate. unfold np_zeros. by rewrite length_replicate.
Qed.

Lemma getitem2_zeros m n i j v : getitem2 (np_zeros2 m n) i j = Ok v -> v = 0.
Proof.
  unfold getitem2, np_zeros2, np_zeros; simpl.
  destruct (replicate m (replicate n 0) !! i) as [r|] eqn:Hr; [|done].
  apply lookup_replicate_1 in Hr as [-> _].
  destruct (replicate n 0 !! j) as [w|] eqn:Hw; [|done].
  apply lookup_replicate_1 in Hw as [-> _]. congruence.
Qed.

Lemma getitem2_in_range (M : array2) i j :
  wf2 M -> (i < shape0 M)%nat -> (j < shape1 M)%nat -> exists v, getitem2 M i j = Ok v.
Proof.
  intros [Hlen Hrows] Hi Hj. unfold getitem2.
  destruct (lookup_lt_is_Some_2 (rows M) i) as [r Hr]; [lia |].
  rewrite Hr.
  assert (length r = shape1 M) as Hlr.
  { eapply Forall_lookup_1 in Hrows; eauto. }
  destruct (lookup_lt_is_Some_2 r j) as [v Hv]; [lia |].
  rewrite Hv. eauto.
Qed.

Lemma setitem2_in_range (M : array2) i j v :
  wf2 M -> (i < shape0 M)%nat -> (j < shape1 M)%nat ->
  exists M', setitem2 M i j v = Ok M' /\ wf2 M' /\
    shape0 M' = shape0 M /\ shape1 M' = shape1 M /\
    getitem2 M' i j = Ok v /\
    (forall i' j', (i', j') <> (i, j) -> getitem2 M' i' j' = getitem2 M i' j').
Proof.
  intros [Hlen Hrows] Hi Hj. unfold setitem2.
  destruct (lookup_lt_is_Some_2 (rows M) i) as [r Hr]; [lia |].
  rewrite Hr.
  assert (length r = shape1 M) as Hlr.
  { eapply Forall_lookup_1 in Hrows; eauto. }
  rewrite decide_True by lia.
  eexists; split; [reflexivity |].
  repeat split; simpl.
  - by rewrite length_insert.
  - apply Forall_insert; [done |]. by rewrite length_insert.
  - unfold getitem2; simpl.
    rewrite list_lookup_insert_eq by lia.
    by rewrite list_lookup_insert_eq by lia.
  - intros i' j' Hne. unfold getitem2; simpl.
    destruct (decide (i' = i)) as [->|Hi'].
    + rewrite list_lookup_insert_eq by lia. rewrite Hr.
      rewrite list_lookup_insert_ne by congruence. done.
    + by rewrite list_lookup_insert_ne by congruence.
Qed.

(** ** The table invariant of [nzv] *)

Lemma count_ge_2 m n : (2 <= count m n)%Z.
Proof.
  revert n. induction m as [|m IH]; intros n; simpl; [lia |].
  case_decide; [lia |].
  specialize (IH n) as H1. specialize (IH (n - 1)%nat) as H2. lia.
Qed.

Lemma count_nonzero m n : Qc_of_Z (count m n) <> 0.
Proof.
  rewrite <- Z2Qc_inj_0. intros H%Z2Qc_inj. pose proof (count_ge_2 m n). lia.
Qed.

Lemma count_base m n : (m = 1 \/ n = 1)%nat -> (1 <= m)%nat -> count m n = 2%Z.
Proof.
  intros H Hm. destruct m as [|m]; [lia |]. simpl.
  rewrite decide_True; [done | lia].
Qed.

Lemma count_step m n :
  (2 <= m)%nat -> n <> 1%nat ->
  count m n = (count (m - 1) (n - 1) + count (m - 1) n)%Z.
Proof.
  intros Hm Hn. destruct m as [|m]; [lia |]. simpl.
  rewrite decide_False by lia. by rewrite Nat.sub_0_r.
Qed.

(** Every cell is unset (zero) or holds the count of its position. *)
Definition table_ok (M : array2) : Prop :=
  wf2 M /\
  forall i j v, getitem2 M i j = Ok v -> v = 0 \/ v = Qc_of_Z (count (S i) (S j)).

(** [M'] is a later state of the table [M]: same shape, still consistent,
    and no cell that was set has changed. *)
Definition table_later (M M' : array2) : Prop :=
  table_ok M' /\ shape0 M' = shape0 M /\ shape1 M' = shape1 M /\
  forall i j v, getitem2 M i j = Ok v -> v <> 0 -> getitem2 M' i j = Ok v.

Lemma table_later_refl M : table_ok M -> table_later M M.
Proof. intros H. repeat split; auto; apply H. Qed.

Lemma table_later_trans M1 M2 M3 :
  table_later M1 M2 -> table_later M2 M3 -> table_later M1 M3.
Proof.
  intros (_ & Ha & Hb & Hc) (Hok & Ha' & Hb' & Hc').
  repeat split; try apply Hok; try congruence.
  intros i j v Hv Hnz. apply Hc'; auto.
Qed.

Lemma table_ok_zeros m n : table_ok (np_zeros2 m n).
Proof.
  split; [apply wf2_zeros |].
  intros i j v Hv. left. eapply getitem2_zeros, Hv.
Qed.

(** Writing the count of a cell into that cell gives a later table. *)
Lemma table_set_count (M : array2) m n :
  table_ok M -> (1 <= m <= shape0 M)%nat -> (1 <= n <= shape1 M)%nat ->
  exists M', setitem2 M (m - 1) (n - 1) (Qc_of_Z (count m n)) = Ok M' /\
    table_later M M' /\ getitem2 M' (m - 1) (n - 1) = Ok (Qc_of_Z (count m n)).
Proof.
  intros [Hwf Hcells] Hm Hn.
  destruct (setitem2_in_range M (m - 1) (n - 1) (Qc_of_Z (count m n)))
    as (M' & HM' & Hwf' & Hs0 & Hs1 & Hget & Hother); [done | lia | lia |].
  exists M'. split; [done |]. split; [|done].
  assert (forall i j v, getitem2 M' i j = Ok v ->
            v = 0 \/ v = Qc_of_Z (count (S i) (S j))) as Hcells'.
  { intros i j v Hv.
    destruct (decide ((i, j) = ((m - 1)%nat, (n - 1)%nat))) as [Heq|Hne].
    - injection Heq as -> ->. rewrite Hget in Hv. injection Hv as <-.
      right. do 2 f_equal; lia.
    - rewrite Hother in Hv by done. eauto. }
  split; [by split |]. do 2 (split; [done |]).
  intros i j v Hv Hnz.
  destruct (decide ((i, j) = ((m - 1)%nat, (n - 1)%nat))) as [Heq|Hne].
  - injection Heq as -> ->. rewrite Hget.
    destruct (Hcells _ _ _ Hv) as [->| ->]; [done |].
    do 3 f_equal; lia.
  - by rewrite Hother.
Qed.

(** ** [nzv] computes the recurrence *)

Lemma nzv_rec_unfold fuel m n M :
  nzv_rec (S fuel) m n M =
    (M ← (if decide (m = 1 \/ n = 1)%nat
          then setitem2 M (m - 1) (n - 1) 2
          else
            v ← getitem2 M (m - 1) (n - 1);
            if decide (v = 0)
            then
              '(k1, M) ← nzv_rec fuel (m - 1) (n - 1) M;
              '(k2, M) ← nzv_rec fuel (m - 1) n M;
              M ← setitem2 M (m - 1) (n - 1) (k1 + k2);
              for_range (n - 1)
                (fun i M => '(_, M) ← nzv_rec fuel m (i + 1) M; Ok M) M
            else Ok M);
     k ← getitem2 M (m - 1) (n - 1);
     Ok (k, M)).
Proof. reflexivity. Qed.

(** On a consistent table that has the cell of [(m, n)], a call with fuel
    [m + n] or more returns [count m n] and a later table holding it. *)
Lemma nzv_rec_spec :
  forall fuel m n M,
    (m + n <= fuel)%nat -> table_ok M ->
    (1 <= m <= shape0 M)%nat -> (1 <= n <= shape1 M)%nat ->
    exists M', nzv_rec fuel m n M = Ok (Qc_of_Z (count m n), M') /\
      table_later M M' /\
      getitem2 M' (m - 1) (n - 1) = Ok (Qc_of_Z (count m n)).
Proof.
  induction fuel as [|fuel IH]; intros m n M Hfuel Hok Hm Hn; [lia |].
  rewrite nzv_rec_unfold.
  destruct (decide (m = 1 \/ n = 1)%nat) as [Hbase|Hrec].
  - (* base case: the cell is set to 2 *)
    rewrite <- Z2Qc_inj_2, <- (count_base m n) by (done || lia).
    destruct (table_set_count M m n) as (M' & -> & Hlater & Hget); [done..|].
    rewrite bind_Ok, Hget, bind_Ok. eauto.
  - destruct (getitem2_in_range M (m - 1) (n - 1)) as [v Hv];
      [apply Hok | lia | lia |].
    rewrite Hv, bind_Ok.
    destruct (decide (v = 0)) as [Hz|Hnz].
    + (* unset cell: two recursive calls, the write, then the eager fill *)
      destruct (IH (m - 1)%nat (n - 1)%nat M) as (M1 & -> & HL1 & _);
        [lia | done | lia | lia |].
      rewrite bind_Ok.
      destruct HL1 as (Hok1 & Ha1 & Hb1 & Hc1).
      destruct (IH (m - 1)%nat n M1) as (M2 & -> & HL2 & _);
        [lia | done | lia | lia |].
      rewrite bind_Ok.
      pose proof HL2 as (Hok2 & Ha2 & Hb2 & Hc2).
      rewrite <- Z2Qc_inj_add, <- count_step by lia.
      destruct (table_set_count M2 m n) as (M3 & -> & HL3 & Hget3);
        [done | lia | lia |].
      rewrite bind_Ok.
      pose proof HL3 as (Hok3 & Ha3 & Hb3 & Hc3).
      destruct (for_range_from_inv
                  (fun M' => table_later M3 M')
                  (fun i M => '(_, M) ← nzv_rec fuel m (i + 1) M; Ok M)
                  (n - 1) 0 M3) as (M4 & HM4 & HL4).
      { by apply table_later_refl. }
      { intros j a Hj Ha.
        pose proof Ha as (Hoka & Haa & Hba & _).
        destruct (IH m (j + 1)%nat a) as (a' & -> & HLa & _);
          [lia | done | lia | lia |].
        rewrite bind_Ok. eexists; split; [reflexivity |].
        by eapply table_later_trans. }
      unfold for_range. rewrite HM4, bind_Ok.
      destruct HL4 as (Hok4 & Ha4 & Hb4 & Hc4).
      rewrite (Hc4 _ _ _ Hget3) by apply count_nonzero.
      rewrite bind_Ok. eexists; split; [reflexivity |].
      split.
      * eapply table_later_trans; [|eapply table_later_trans];
          [| eapply table_later_trans |]; [| exact HL2 | exact HL3 |].
        -- repeat split; auto; apply Hok1.
        -- repeat split; auto; apply Hok4.
      * apply Hc4; [done | apply count_nonzero].
    + (* the cell is already set *)
      rewrite bind_Ok, Hv, bind_Ok.
      destruct Hok as [Hwf Hcells].
      destruct (Hcells _ _ _ Hv) as [?|Hvc]; [done |].
      replace (S (m - 1)) with m in Hvc by lia.
      replace (S (n - 1)) with n in Hvc by lia.
      subst v. eexists; split; [reflexivity |].
      split; [by apply table_later_refl |]. done.
Qed.

(** [nzv(m, n)] with a fresh table returns [count m n] for all [m, n >= 1]. *)
Lemma nzv_fresh m n :
  (1 <= m)%nat -> (1 <= n)%nat ->
  exists M', nzv m n None = Ok (Qc_of_Z (count m n), M').
Proof.
  intros Hm Hn. unfold nzv; simpl.
  destruct (nzv_rec_spec (m + n) m n (np_zeros2 m n)) as (M' & H & _);
    [lia | apply table_ok_zeros | simpl; lia | simpl; lia |].
  eauto.
Qed.

(** The fuel is no part of the answer: any depth bound from [m + n] on gives
    the value of the fresh-table call. *)
Lemma nzv_fuel_irrelevant fuel m n :
  (1 <= m)%nat -> (1 <= n)%nat -> (m + n <= fuel)%nat ->
  fst <$> (match nzv_rec fuel m n (np_zeros2 m n) with
           | Ok p => Some p | Raise _ => None end)
  = Some (Qc_of_Z (count m n)).
Proof.
  intros Hm Hn Hf.
  destruct (nzv_rec_spec fuel m n (np_zeros2 m n)) as (M' & -> & _);
    [lia | apply table_ok_zeros | simpl; lia | simpl; lia |].
  reflexivity.
Qed.

(** C3: for [1 <= n <= m], [nzv(m, n)] returns an integer-valued count that
    is 2 when [m = 1] or [n = 1] and otherwise the sum of the counts returned
    by [nzv(m-1, n-1)] and [nzv(m-1, n)]; each call starts from a fresh table,
    so the value is a function of [(m, n)] alone. *)
Theorem nzv_recurrence (m n : nat) :
  (1 <= n <= m)%nat ->
  exists (k : Qc) (M : array2),
    nzv m n None = Ok (k, M) /\
    (exists z : Z, k = Qc_of_Z z) /\
    ((m = 1 \/ n = 1)%nat -> k = 2) /\
    (m <> 1%nat -> n <> 1%nat ->
       exists k1 k2 M1 M2,
         nzv (m - 1) (n - 1) None = Ok (k1, M1) /\
         nzv (m - 1) n None = Ok (k2, M2) /\
         k = k1 + k2).
Proof.
  intros [Hn Hm].
  destruct (nzv_fresh m n) as [M HM]; [lia | lia |].
  exists (Qc_of_Z (count m n)), M.
  split; [done |]. split; [eauto |]. split.
  - intros Hbase. by rewrite count_base, Z2Qc_inj_2 by (done || lia).
  - intros Hm1 Hn1.
    destruct (nzv_fresh (m - 1) (n - 1)) as [M1 HM1]; [lia | lia |].
    destruct (nzv_fresh (m - 1) n) as [M2 HM2]; [lia | lia |].
    exists (Qc_of_Z (count (m - 1) (n - 1))), (Qc_of_Z (count (m - 1) n)), M1, M2.
    split; [done |]. split; [done |].
    by rewrite <- Z2Qc_inj_add, <- count_step by lia.
Qed.

(** The call [nzv(3, 2)] of the end-to-end example: six vertices. *)
Lemma nzv_recurrence_witness :
  (1 <= 2 <= 3)%nat /\
  exists (k : Qc) (M : array2),
    nzv 3 2 None = Ok (k, M) /\
    (exists z : Z, k = Qc_of_Z z) /\
    ((3 = 1 \/ 2 = 1)%nat -> k = 2) /\
    (3%nat <> 1%nat -> 2%nat <> 1%nat ->
       exists k1 k2 M1 M2,
         nzv (3 - 1) (2 - 1) None = Ok (k1, M1) /\
         nzv (3 - 1) 2 None = Ok (k2, M2) /\
         k = k1 + k2).
Proof. split; [lia | apply (nzv_recurrence 3 2); lia]. Defined.

(** ** Arithmetic on [Qc] *)

Lemma Qc_eq_Qeq (x y : Qc) : x = y <-> (this x == this y)%Q.
Proof. split; [intros ->; reflexivity | apply Qc_is_canon]. Qed.

(** Linear arithmetic over [Qc], by [lra] on the underlying rationals. *)
Ltac qc_lra :=
  repeat match goal with
  | H : @eq Qc _ _ |- _ => apply Qc_eq_Qeq in H
  | H : not (@eq Qc _ _) |- _ => rewrite Qc_eq_Qeq in H
  end;
  try apply Qc_eq_Qeq;
  unfold Qcle, Qclt, Qcminus, Qcplus, Qcmult, Qcopp, Q2Qc in *; cbn [this] in *;
  rewrite ?Qred_correct in *; lra.

Lemma np_sign_cases (x : Qc) :
  (x < 0 /\ np_sign x = - 1) \/ (x = 0 /\ np_sign x = 0) \/ (0 < x /\ np_sign x = 1).
Proof.
  unfold np_sign. destruct (x ?= 0) eqn:Hc.
  - right; left. split; [by apply Qceq_alt | done].
  - left. split; [by apply Qclt_alt | done].
  - right; right. split; [by apply Qcgt_alt in Hc | done].
Qed.

Lemma np_sign_values (x : Qc) : np_sign x = - 1 \/ np_sign x = 0 \/ np_sign x = 1.
Proof. destruct (np_sign_cases x) as [[_ ->]|[[_ ->]|[_ ->]]]; auto. Qed.

Lemma np_sign_zero_iff (x : Qc) : np_sign x = 0 <-> x = 0.
Proof.
  destruct (np_sign_cases x) as [[Hx ->]|[[Hx ->]|[Hx ->]]]; split; intros H;
    try done; try (exfalso; qc_lra).
Qed.

Lemma np_abs_nonneg (x : Qc) : 0 <= np_abs x.
Proof. unfold np_abs. case_decide as H; [|apply Qcnot_lt_le in H]; qc_lra. Qed.

Lemma mul_np_sign (x : Qc) : x * np_sign x = np_abs x.
Proof.
  unfold np_abs.
  destruct (np_sign_cases x) as [[Hx ->]|[[Hx ->]|[Hx ->]]]; case_decide as H;
    try ring; try (exfalso; qc_lra).
  subst x. ring.
Qed.

Lemma vsum_nonneg (v : vec) : Forall (fun x => 0 <= x) v -> 0 <= vsum v.
Proof.
  induction 1 as [|x v Hx _ IH]; simpl; [apply Qcle_refl |].
  by apply Qcplus_nonneg_nonneg.
Qed.

Lemma dot_sign_abs (w : vec) : dot w (map np_sign w) = vsum (map np_abs w).
Proof.
  unfold dot. induction w as [|x w IH]; simpl; [done |].
  by rewrite mul_np_sign, IH.
Qed.

Lemma dot_sign_nonneg (w : vec) : 0 <= dot w (map np_sign w).
Proof.
  rewrite dot_sign_abs. apply vsum_nonneg, Forall_map, Forall_forall.
  intros x _. apply np_abs_nonneg.
Qed.

Lemma dot_neg_r (u v : vec) : dot u (map Qcopp v) = - dot u v.
Proof.
  unfold dot. revert v. induction u as [|x u IH]; intros [|y v]; simpl;
    try (apply Qc_is_canon; reflexivity).
  rewrite IH. ring.
Qed.

(** ** Column arrays *)

Lemma column_col_of (v : vec) : column 0 (col_of v) = v.
Proof.
  unfold column, col_of; simpl. induction v as [|x v IH]; simpl; [done |].
  by rewrite IH.
Qed.

(** A well-formed array with one column is the column of its entries. *)
Lemma one_column (W1 : array2) :
  wf2 W1 -> shape1 W1 = 1%nat -> W1 = col_of (column 0 W1).
Proof.
  destruct W1 as [m n rs]. unfold wf2, col_of, column; simpl.
  intros [Hlen Hrows] ->. rewrite length_map, Hlen. f_equal.
  clear Hlen. induction Hrows as [|r rs Hr _ IH]; simpl; [done |].
  rewrite <- IH. destruct r as [|x [|? ?]]; simpl in *; done.
Qed.

Lemma transpose_col_of (v : vec) : transpose (col_of v) = Arr2 1 (length v) [v].
Proof. unfold transpose; simpl. by rewrite column_col_of. Qed.

Lemma map2_col_of (f : Qc -> Qc) (v : vec) : map2 f (col_of v) = col_of (map f v).
Proof.
  unfold map2, col_of; simpl. rewrite length_map. f_equal.
  induction v as [|x v IH]; simpl; [done | by rewrite IH].
Qed.

Lemma ravel_col_of (v : vec) : ravel (col_of v) = v.
Proof.
  unfold ravel, col_of; simpl. induction v as [|x v IH]; simpl; [done | by rewrite IH].
Qed.

Lemma reshape2_one_row (v : vec) (m : nat) :
  length v = m -> reshape2 1 m v = Arr2 1 m [v].
Proof. intros <-. unfold reshape2; simpl. by rewrite firstn_all. Qed.

(** ** [interval_endpoints] on a column *)

(** The value of [interval_endpoints] on the column of [w], with
    [y0 = dot w (sign w)]: the [else] branch is the one taken. *)
Lemma interval_endpoints_col (w : vec) :
  let y0 := dot w (map np_sign w) in
  getrow (np_dot (transpose (col_of w)) (map2 np_sign (col_of w))) 0 = Ok [y0] /\
  truth (np_lt [y0] (vneg [y0])) = Ok false /\
  interval_endpoints (col_of w) =
    Ok (Arr2 2 1 [[- y0]; [y0]],
        Arr2 2 (length w) [map Qcopp (map np_sign w); map np_sign w]).
Proof.
  intros y0.
  assert (getrow (np_dot (transpose (col_of w)) (map2 np_sign (col_of w))) 0
          = Ok [y0]) as Hrow.
  { rewrite transpose_col_of, map2_col_of. unfold getrow, np_dot; simpl.
    by rewrite column_col_of. }
  assert (truth (np_lt [y0] (vneg [y0])) = Ok false) as Htruth.
  { simpl. rewrite bool_decide_eq_false_2; [done |].
    pose proof (dot_sign_nonneg w) as H. fold y0 in H.
    intros Hlt. qc_lra. }
  split; [done |]. split; [done |].
  unfold interval_endpoints. rewrite Hrow, bind_Ok, Htruth, bind_Ok.
  cbv zeta iota beta. rewrite !map2_col_of, !ravel_col_of. simpl shape0.
  rewrite !reshape2_one_row by (by rewrite ?length_map).
  reflexivity.
Qed.

Lemma wf2_col_of (v : vec) : wf2 (col_of v).
Proof.
  split; simpl; [by rewrite length_map |].
  apply Forall_map, Forall_forall. done.
Qed.

Lemma shape0_one_column (W1 : array2) :
  wf2 W1 -> length (column 0 W1) = shape0 W1.
Proof. intros [Hlen _]. unfold column. by rewrite length_map. Qed.

(** C4: for [W1] of shape (m, 1), [interval_endpoints] returns a 2x1 [Y]
    with entries [yl <= yu] and a 2xm [X] with rows [xl], [xu] such that
    [W1ᵗ·xl = yl] and [W1ᵗ·xu = yu], as equalities of exact numbers. *)
Theorem interval_endpoints_ordered (W1 : array2) :
  wf2 W1 -> shape1 W1 = 1%nat ->
  exists (yl yu : Qc) (xl xu : vec),
    interval_endpoints W1 =
      Ok (Arr2 2 1 [[yl]; [yu]], Arr2 2 (shape0 W1) [xl; xu]) /\
    length xl = shape0 W1 /\ length xu = shape0 W1 /\
    yl <= yu /\
    np_dot_mv (transpose W1) xl = [yl] /\
    np_dot_mv (transpose W1) xu = [yu].
Proof.
  intros Hwf Hn.
  pose proof (shape0_one_column W1 Hwf) as Hm.
  rewrite (one_column W1 Hwf Hn).
  set (w := column 0 W1) in *.
  destruct (interval_endpoints_col w) as (_ & _ & Hval).
  exists (- dot w (map np_sign w)), (dot w (map np_sign w)),
    (map Qcopp (map np_sign w)), (map np_sign w).
  split; [by rewrite Hval |].
  rewrite !length_map. split; [done |]. split; [done |]. split.
  - pose proof (dot_sign_nonneg w). qc_lra.
  - rewrite transpose_col_of. unfold np_dot_mv; simpl.
    by rewrite dot_neg_r.
Qed.

Lemma interval_endpoints_ordered_witness :
  exists (yl yu : Qc) (xl xu : vec),
    interval_endpoints W1_mixed =
      Ok (Arr2 2 1 [[yl]; [yu]], Arr2 2 (shape0 W1_mixed) [xl; xu]) /\
    length xl = shape0 W1_mixed /\ length xu = shape0 W1_mixed /\
    yl <= yu /\
    np_dot_mv (transpose W1_mixed) xl = [yl] /\
    np_dot_mv (transpose W1_mixed) xu = [yu].
Proof.
  apply (interval_endpoints_ordered W1_mixed); [apply wf2_col_of | reflexivity].
Defined.

(** C10: for [W1] of shape (m, 1) the scalar [y0 = W1ᵗ·sign(W1)] is the sum
    of the absolute values of the entries, hence not negative; the test
    [y0 < -y0] is false, and the function returns [yl = -y0], [yu = y0],
    [xl = -sign(W1)], [xu = sign(W1)]. *)
Theorem interval_endpoints_else_branch (W1 : array2) :
  wf2 W1 -> shape1 W1 = 1%nat ->
  exists y0 : Qc,
    getrow (np_dot (transpose W1) (map2 np_sign W1)) 0 = Ok [y0] /\
    y0 = vsum (map np_abs (column 0 W1)) /\
    0 <= y0 /\
    truth (np_lt [y0] (vneg [y0])) = Ok false /\
    interval_endpoints W1 =
      Ok (Arr2 2 1 [[- y0]; [y0]],
          Arr2 2 (shape0 W1)
            [map Qcopp (map np_sign (column 0 W1)); map np_sign (column 0 W1)]).
Proof.
  intros Hwf Hn.
  pose proof (shape0_one_column W1 Hwf) as Hm.
  rewrite (one_column W1 Hwf Hn), column_col_of.
  set (w := column 0 W1) in *.
  destruct (interval_endpoints_col w) as (Hrow & Htruth & Hval).
  exists (dot w (map np_sign w)).
  split; [done |]. split; [apply dot_sign_abs |].
  split; [apply dot_sign_nonneg |]. split; [done |].
  by rewrite Hval.
Qed.

Lemma interval_endpoints_else_branch_witness :
  exists y0 : Qc,
    getrow (np_dot (transpose W1_mixed) (map2 np_sign W1_mixed)) 0 = Ok [y0] /\
    y0 = vsum (map np_abs (column 0 W1_mixed)) /\
    0 <= y0 /\
    truth (np_lt [y0] (vneg [y0])) = Ok false /\
    interval_endpoints W1_mixed =
      Ok (Arr2 2 1 [[- y0]; [y0]],
          Arr2 2 (shape0 W1_mixed)
            [map Qcopp (map np_sign (column 0 W1_mixed));
             map np_sign (column 0 W1_mixed)]).
Proof.
  apply (interval_endpoints_else_branch W1_mixed);
    [apply wf2_col_of | reflexivity].
Defined.

(** ** Computations in [py] *)

Section PyLemmas.
Context `{External}.

Lemma py_bind_Ok {A B : Type} (c : py A) (f : A -> py B) w a w' :
  c w = (Ok a, w') -> (c ≫= f) w = f a w'.
Proof. unfold mbind, py_mbind, py_bind. by intros ->. Qed.

Lemma py_bind_Raise {A B : Type} (c : py A) (f : A -> py B) w e w' :
  c w = (Raise e, w') -> (c ≫= f) w = (Raise e, w').
Proof. unfold mbind, py_mbind, py_bind. by intros ->. Qed.

Lemma py_ret_run {A : Type} (a : A) w : (mret a : py A) w = (Ok a, w).
Proof. reflexivity. Qed.

Lemma normal_run (k : nat) w :
  normal k w =
    (Ok (np_random_normal k (generator w)).1,
     World (np_random_normal k (generator w)).2 (warnings_log w)).
Proof. unfold normal. by destruct (np_random_normal k (generator w)). Qed.

(** A loop in [py] whose body keeps an invariant of the accumulator and the
    world, and never raises on it, runs to the end. *)
Lemma py_for_from_inv {A : Type} (P : A -> world -> Prop)
    (body : nat -> A -> py A) :
  (forall j a w, P a w -> exists a' w', body j a w = (Ok a', w') /\ P a' w') ->
  forall n i acc w,
    P acc w ->
    exists acc' w', py_for_from i n body acc w = (Ok acc', w') /\ P acc' w'.
Proof.
  intros Hbody. induction n as [|n IH]; intros i acc w Hacc; simpl.
  - exists acc, w. by rewrite py_ret_run.
  - destruct (Hbody i acc w Hacc) as (a' & w' & Hrun & Ha').
    destruct (IH (S i) a' w' Ha') as (acc' & w'' & Hrest & Hacc').
    exists acc', w''. split; [|done].
    by rewrite (py_bind_Ok _ _ _ _ _ Hrun).
Qed.

Lemma py_bind_assoc {A B C : Type} (c : py A) (f : A -> py B) (g : B -> py C) w :
  ((c ≫= f) ≫= g) w = (c ≫= (fun a => f a ≫= g)) w.
Proof.
  unfold mbind, py_mbind, py_bind. by destruct (c w) as [[a|e] w'].
Qed.

End PyLemmas.

(** ** The walk of [sample_z] *)

Section Walk.
Context `{External}.

Lemma dot_zeros_r (r : vec) (k : nat) : dot r (np_zeros k) = 0.
Proof.
  unfold dot, np_zeros. revert k.
  induction r as [|x r IH]; intros [|k]; simpl; try done.
  rewrite IH. ring.
Qed.

(** The test the code evaluates is the constraint the specification states. *)
Lemma inside_bounds (a s : vec) :
  np_all (np_le a (scalar_minus 1 s)) && np_all (np_ge a (scalar_minus (- 1) s)) = true
  <-> Forall (fun t => - 1 <= t /\ t <= 1) (vadd s a).
Proof.
  unfold np_all, np_le, np_ge, scalar_minus, vadd.
  revert s. induction a as [|x a IH]; intros [|t s]; simpl;
    try (split; [constructor | done]).
  rewrite Forall_cons_iff, <- IH.
  rewrite !andb_true_iff, !bool_decide_eq_true.
  split.
  - intros [[H1 H2] [H3 H4]]. repeat split; try done; qc_lra.
  - intros [[H1 H2] [H3 H4]]. repeat split; try done; qc_lra.
Qed.

Lemma inside_feasible (W1 W2 : array2) (y zc : vec) :
  inside W2 (np_dot_mv W1 y) zc = true <-> feasible W1 W2 y zc.
Proof. apply inside_bounds. Qed.

(** [proposal] is one [walk_step]. *)
Lemma proposal_walk (sig : Qc) (W1 W2 : array2) (y z : vec) (w : world) :
  proposal sig W2 (np_dot_mv W1 y) z w =
    (Ok (walk_step sig W1 W2 y (z, generator w)).1,
     World (walk_step sig W1 W2 y (z, generator w)).2 (warnings_log w)).
Proof.
  unfold proposal, walk_step.
  rewrite (py_bind_Ok _ _ _ _ _ (normal_run _ _)).
  destruct (np_random_normal (length z) (generator w)) as [e g'] eqn:He.
  rewrite py_ret_run. simpl.
  destruct (inside W2 (np_dot_mv W1 y) (vadd z (vscale sig e))) eqn:Hin.
  - apply inside_feasible in Hin. by rewrite decide_True.
  - rewrite decide_False; [done |].
    intros Hf%inside_feasible. congruence.
Qed.

Lemma walk_step_length sig W1 W2 y z g :
  length (walk_step sig W1 W2 y (z, g)).1 = length z.
Proof.
  unfold walk_step.
  pose proof (np_random_normal_length (length z) g) as He.
  destruct (np_random_normal (length z) g) as [e g']; simpl in *.
  case_decide; [|done].
  unfold vadd, vscale. rewrite length_zip_with, length_map. lia.
Qed.

Lemma walk_step_feasible sig W1 W2 y z g :
  feasible W1 W2 y z -> feasible W1 W2 y (walk_step sig W1 W2 y (z, g)).1.
Proof.
  intros Hz. unfold walk_step.
  destruct (np_random_normal (length z) g) as [e g']; simpl.
  by case_decide.
Qed.

Lemma chain_S sig W1 W2 y k st :
  chain sig W1 W2 y (S k) st = chain sig W1 W2 y k (walk_step sig W1 W2 y st).
Proof. unfold chain. apply Nat.iter_succ_r. Qed.

Lemma chain_length sig W1 W2 y k z g :
  length (chain sig W1 W2 y k (z, g)).1 = length z.
Proof.
  induction k as [|k IH]; [done |].
  unfold chain in *. simpl.
  destruct (Nat.iter k (walk_step sig W1 W2 y) (z, g)) as [z' g'] eqn:Hk.
  rewrite walk_step_length. exact IH.
Qed.

(** Feasibility is an invariant of the walk. *)
Lemma chain_feasible sig W1 W2 y k z g :
  feasible W1 W2 y z -> feasible W1 W2 y (chain sig W1 W2 y k (z, g)).1.
Proof.
  intros Hz. induction k as [|k IH]; [done |].
  unfold chain in *. simpl.
  destruct (Nat.iter k (walk_step sig W1 W2 y) (z, g)) as [z' g'] eqn:Hk.
  by apply walk_step_feasible.
Qed.

(** The burn-in loop is the walk run for as many steps. *)
Lemma burn_in_run sig W1 W2 y :
  forall n i z w,
    py_for_from i n (fun _ z0 => proposal sig W2 (np_dot_mv W1 y) z0) z w =
      (Ok (chain sig W1 W2 y n (z, generator w)).1,
       World (chain sig W1 W2 y n (z, generator w)).2 (warnings_log w)).
Proof.
  induction n as [|n IH]; intros i z w.
  - simpl. rewrite py_ret_run. by destruct w.
  - cbn [py_for_from].
    rewrite (py_bind_Ok _ _ _ _ _ (proposal_walk sig W1 W2 y z w)).
    rewrite IH, chain_S. cbn [generator warnings_log].
    by destruct (walk_step sig W1 W2 y (z, generator w)).
Qed.

End Walk.

(** ** Writing and reading columns *)

Lemma wf2_setcol (A : array2) (i : nat) (v : vec) :
  wf2 A -> length v = shape0 A -> wf2 (setcol A i v).
Proof.
  intros [Hlen Hrows] Hv. split; simpl.
  - rewrite length_zip_with. lia.
  - clear Hlen Hv. revert v.
    induction Hrows as [|r rs Hr _ IH]; intros [|x v]; simpl; try constructor.
    + by rewrite length_insert.
    + apply IH.
Qed.

Lemma column_setcol_eq (A : array2) (i : nat) (v : vec) :
  wf2 A -> length v = shape0 A -> (i < shape1 A)%nat ->
  column i (setcol A i v) = v.
Proof.
  intros [Hlen Hrows] Hv Hi. unfold column, setcol; simpl.
  rewrite <- Hlen in Hv. clear Hlen. revert v Hv.
  induction Hrows as [|r rs Hr _ IH]; intros [|x v] Hv; simpl in *; try done.
  f_equal.
  - apply nth_lookup_Some with (d := 0). apply list_lookup_insert_eq. lia.
  - apply IH. lia.
Qed.

Lemma column_setcol_ne (A : array2) (i j : nat) (v : vec) :
  wf2 A -> length v = shape0 A -> j <> i ->
  column j (setcol A i v) = column j A.
Proof.
  intros [Hlen Hrows] Hv Hne. unfold column, setcol; simpl.
  rewrite <- Hlen in Hv. clear Hlen Hrows. revert v Hv.
  induction (rows A) as [|r rs IH]; intros [|x v] Hv; simpl in *; try done.
  f_equal.
  - rewrite !nth_lookup. by rewrite list_lookup_insert_ne.
  - apply IH. lia.
Qed.

Section SampleZ.
Context `{External}.

Lemma chain_add sig W1 W2 y a b st :
  chain sig W1 W2 y (a + b) st = chain sig W1 W2 y a (chain sig W1 W2 y b st).
Proof. unfold chain. apply Nat.iter_add. Qed.

(** The sampling loop is the walk run on, each state written to its column. *)
Lemma sampling_run sig W1 W2 y :
  forall n i z Z w,
    wf2 Z -> length z = shape0 Z -> (i + n <= shape1 Z)%nat ->
    exists Z',
      py_for_from i n
        (fun i '(z0, Z) =>
           z0 ← proposal sig W2 (np_dot_mv W1 y) z0;
           mret (z0, setcol Z i z0))
        (z, Z) w =
        (Ok ((chain sig W1 W2 y n (z, generator w)).1, Z'),
         World (chain sig W1 W2 y n (z, generator w)).2 (warnings_log w)) /\
      wf2 Z' /\ shape0 Z' = shape0 Z /\ shape1 Z' = shape1 Z /\
      (forall j, (i <= j < i + n)%nat ->
         column j Z' = (chain sig W1 W2 y (S (j - i)) (z, generator w)).1) /\
      (forall j, (j < i)%nat -> column j Z' = column j Z).
Proof.
  induction n as [|n IH]; intros i z Z w Hwf Hz Hi.
  - exists Z. cbn [py_for_from]. rewrite py_ret_run.
    split; [by destruct w |]. do 3 (split; [done |]).
    split; [intros j Hj; lia | done].
  - cbn [py_for_from].
    pose proof (walk_step_length sig W1 W2 y z (generator w)) as Hlen.
    destruct (walk_step sig W1 W2 y (z, generator w)) as [z1 g1] eqn:Hstep.
    simpl in Hlen.
    destruct (IH (S i) z1 (setcol Z i z1) (World g1 (warnings_log w)))
      as (Z' & Hrun & Hwf' & Hs0 & Hs1 & Hnew & Hold).
    { apply wf2_setcol; [done | lia]. }
    { simpl. lia. }
    { simpl. lia. }
    exists Z'. split.
    { rewrite chain_S, Hstep.
      cbn [generator warnings_log] in Hrun. rewrite <- Hrun.
      apply py_bind_Ok. cbn beta iota.
      erewrite py_bind_Ok; [| apply proposal_walk].
      rewrite Hstep. reflexivity. }
    split; [done |]. split; [done |]. split; [done |]. split.
    + intros j Hj. destruct (decide (j = i)) as [->|Hne].
      * rewrite Hold by lia.
        rewrite column_setcol_eq by (done || lia).
        replace (i - i)%nat with 0%nat by lia.
        rewrite chain_S, Hstep. reflexivity.
      * rewrite Hnew by lia. cbn [generator].
        replace (S (j - i)) with (S (S (j - S i))) by lia.
        rewrite (chain_S _ _ _ _ (S (j - S i)) (z, generator w)), Hstep.
        reflexivity.
    + intros j Hj. rewrite Hold by lia.
      apply column_setcol_ne; [done | lia | lia].
Qed.

Lemma length_np_dot_mv (A : array2) (v : vec) :
  length (np_dot_mv A v) = length (rows A).
Proof. unfold np_dot_mv. by rewrite length_map. Qed.

Lemma seed_length (y : vec) (W1 W2 : array2) (z0 : vec) :
  seed y W1 W2 = Ok z0 ->
  shape1 W2 = (shape0 W1 - shape1 W1)%nat ->
  length z0 = (shape0 W1 - shape1 W1)%nat.
Proof.
  unfold seed. intros Hseed Hshape.
  destruct (origin_inside _ _) in Hseed.
  - injection Hseed as <-. unfold np_zeros. by rewrite length_replicate.
  - apply bind_Ok_inv in Hseed as (x0 & _ & Hz). injection Hz as <-.
    rewrite length_np_dot_mv. simpl. by rewrite length_map, length_seq.
Qed.

(** The seed [0] is feasible when the code chooses it. *)
Lemma seed_origin_feasible (y : vec) (W1 W2 : array2) :
  wf2 W1 ->
  let s := np_dot_mv W1 y in
  origin_inside (shape0 W1) s = true ->
  feasible W1 W2 y (np_zeros (shape0 W1 - shape1 W1)).
Proof.
  intros [Hlen _] s Htest. apply inside_bounds in Htest.
  unfold feasible. fold s.
  assert (length s = shape0 W1) as Hs.
  { unfold s. by rewrite length_np_dot_mv. }
  unfold np_dot_mv.
  rewrite (map_ext _ (fun _ => 0)) by (intros; apply dot_zeros_r).
  revert Htest. rewrite <- Hs. clear.
  generalize (rows W2) as rs. unfold vadd, np_zeros.
  induction s as [|t s IH]; intros rs Hall; simpl; [constructor |].
  destruct rs as [|r rs]; simpl; [constructor |].
  simpl in Hall. apply Forall_cons_iff in Hall as [Ht Hall].
  constructor; [done | by apply IH].
Qed.

(** What a call of [sample_z] does, given its seed [z0]: [10 N] steps of the
    walk, then [N] more whose states fill the columns of the result. *)
Lemma sample_z_run (N : Z) (y : vec) (W1 W2 : array2) (z0 : vec) (w : world) :
  (0 <= N)%Z ->
  shape1 W2 = (shape0 W1 - shape1 W1)%nat ->
  seed y W1 W2 = Ok z0 ->
  let sig := step_size W2 (np_dot_mv W1 y) z0 in
  let st := (z0, generator w) in
  exists Z : array2,
    sample_z N y W1 W2 w =
      (Ok Z, World (chain sig W1 W2 y (Z.to_nat (11 * N)) st).2 (warnings_log w)) /\
    wf2 Z /\
    shape0 Z = (shape0 W1 - shape1 W1)%nat /\
    shape1 Z = Z.to_nat N /\
    forall i, (i < Z.to_nat N)%nat ->
      column i Z = (chain sig W1 W2 y (Z.to_nat (10 * N) + i + 1) st).1.
Proof.
  intros HN Hshape Hseed sig st. subst st.
  pose proof (seed_length _ _ _ _ Hseed Hshape) as Hz0.
  pose proof (chain_length sig W1 W2 y (Z.to_nat (10 * N)) z0 (generator w))
    as Hz1.
  destruct (chain sig W1 W2 y (Z.to_nat (10 * N)) (z0, generator w))
    as [z1 g1] eqn:Hst1.
  simpl in Hz1.
  destruct (sampling_run sig W1 W2 y (Z.to_nat N) 0 z1
              (np_zeros2 (shape0 W1 - shape1 W1) (Z.to_nat N))
              (World g1 (warnings_log w)))
    as (Z' & Hrun & Hwf & Hs0 & Hs1 & Hnew & _).
  { apply wf2_zeros. }
  { simpl. lia. }
  { simpl. lia. }
  cbn [generator warnings_log] in Hrun, Hnew.
  exists Z'. split.
  - unfold sample_z.
    erewrite py_bind_Ok; [| unfold lift; rewrite Hseed; reflexivity].
    erewrite py_bind_Ok; [| unfold py_for; apply burn_in_run].
    fold sig. rewrite Hst1. cbn [fst snd].
    erewrite py_bind_Ok;
      [| unfold lift, np_zeros2_int; rewrite decide_False by lia; reflexivity].
    erewrite py_bind_Ok; [| unfold py_for; exact Hrun].
    cbn beta iota. rewrite py_ret_run.
    replace (Z.to_nat (11 * N)) with (Z.to_nat N + Z.to_nat (10 * N))%nat by lia.
    by rewrite chain_add, Hst1.
  - split; [done |]. split; [done |]. split; [done |].
    intros i Hi. rewrite Hnew by lia.
    replace (S (i - 0)) with (S i) by lia.
    replace (Z.to_nat (10 * N) + i + 1)%nat with (S i + Z.to_nat (10 * N))%nat by lia.
    by rewrite chain_add, Hst1.
Qed.

End SampleZ.

Section SampleZProperties.
Context `{External}.

Lemma vadd_comm (u v : vec) : vadd u v = vadd v u.
Proof.
  unfold vadd. revert v.
  induction u as [|a u IH]; intros [|b v]; simpl; try done.
  by rewrite IH, Qcplus_comm.
Qed.

(** C1: when the seed [z0] is feasible (the origin, chosen when the test of
    line 144 holds, or else the point obtained from the solver), every column
    [z] of the array [sample_z] returns satisfies [-1 <= W1·y + W2·z <= 1] in
    every component: the walk keeps feasibility at each step. *)
Theorem sample_z_feasible (N : Z) (y : vec) (W1 W2 : array2) (z0 : vec)
    (w : world) :
  wf2 W1 ->
  shape1 W2 = (shape0 W1 - shape1 W1)%nat ->
  (0 <= N)%Z ->
  seed y W1 W2 = Ok z0 ->
  (origin_inside (shape0 W1) (np_dot_mv W1 y) = false -> feasible W1 W2 y z0) ->
  exists (Z : array2) (w' : world),
    sample_z N y W1 W2 w = (Ok Z, w') /\
    shape0 Z = (shape0 W1 - shape1 W1)%nat /\
    shape1 Z = Z.to_nat N /\
    forall i, (i < Z.to_nat N)%nat -> feasible W1 W2 y (column i Z).
Proof.
  intros Hwf Hshape HN Hseed Hlp.
  assert (feasible W1 W2 y z0) as Hz0.
  { destruct (origin_inside (shape0 W1) (np_dot_mv W1 y)) eqn:Horigin; [|auto].
    unfold seed in Hseed. rewrite Horigin in Hseed. injection Hseed as <-.
    by apply seed_origin_feasible. }
  destruct (sample_z_run N y W1 W2 z0 w HN Hshape Hseed)
    as (Z & Hrun & _ & Hs0 & Hs1 & Hcols).
  exists Z. eexists. split; [exact Hrun |].
  split; [done |]. split; [done |].
  intros i Hi. rewrite (Hcols i Hi).
  by apply chain_feasible.
Qed.

(** C2: [sample_z] makes [10 N] burn-in steps and then [N] sampling steps of
    the walk, one draw of the generator each; a step moves to the candidate
    [z + sig * Normal(0, I)] exactly when [-1 <= W2·candidate + W1·y <= 1] in
    every component, with no other acceptance test; column [i] of the result
    is the state after sampling step [i + 1], moved or not; the result has
    shape (m-n) x N. *)
Theorem sample_z_steps (N : Z) (y : vec) (W1 W2 : array2) (z0 : vec)
    (w : world) :
  (0 <= N)%Z ->
  shape1 W2 = (shape0 W1 - shape1 W1)%nat ->
  seed y W1 W2 = Ok z0 ->
  let sig := step_size W2 (np_dot_mv W1 y) z0 in
  let st := (z0, generator w) in
  let burn := Z.to_nat (10 * N) in
  exists Z : array2,
    sample_z N y W1 W2 w =
      (Ok Z,
       World (chain sig W1 W2 y (burn + Z.to_nat N) st).2 (warnings_log w)) /\
    wf2 Z /\
    shape0 Z = (shape0 W1 - shape1 W1)%nat /\
    shape1 Z = Z.to_nat N /\
    (forall i, (i < Z.to_nat N)%nat ->
       column i Z = (chain sig W1 W2 y (burn + i + 1) st).1) /\
    (forall k, chain sig W1 W2 y (S k) st =
       walk_step sig W1 W2 y (chain sig W1 W2 y k st)) /\
    (forall z g,
       let e := (np_random_normal (length z) g).1 in
       let cand := vadd z (vscale sig e) in
       (walk_step sig W1 W2 y (z, g)).1 =
         if inside W2 (np_dot_mv W1 y) cand then cand else z) /\
    (forall cand,
       inside W2 (np_dot_mv W1 y) cand = true <->
       Forall (fun t => - 1 <= t /\ t <= 1)
         (vadd (np_dot_mv W2 cand) (np_dot_mv W1 y))).
Proof.
  intros HN Hshape Hseed sig st burn.
  destruct (sample_z_run N y W1 W2 z0 w HN Hshape Hseed)
    as (Z & Hrun & Hwf & Hs0 & Hs1 & Hcols).
  exists Z. split.
  { replace (burn + Z.to_nat N)%nat with (Z.to_nat (11 * N))
      by (unfold burn; lia).
    exact Hrun. }
  do 3 (split; [done |]).
  split; [exact Hcols |]. split; [reflexivity |]. split.
  - intros z g e cand. unfold walk_step. subst e cand.
    destruct (np_random_normal (length z) g) as [e g']; simpl.
    destruct (inside W2 (np_dot_mv W1 y) (vadd z (vscale sig e))) eqn:Hin.
    + apply inside_feasible in Hin. by rewrite decide_True.
    + rewrite decide_False; [done |].
      intros Hf%inside_feasible. congruence.
  - intros cand. rewrite vadd_comm. apply inside_feasible.
Qed.

End SampleZProperties.

(** The call [sample_z(3, [1/2], W1, W2)] on the plane: the origin is inside,
    and the walk starts there. *)
Lemma sample_z_feasible_witness :
  exists (Z : array2) (w' : world),
    sample_z 3 [Q2Qc (1 # 2)] (W1 S_plane) (W2 S_plane) world0 = (Ok Z, w') /\
    shape0 Z = (shape0 (W1 S_plane) - shape1 (W1 S_plane))%nat /\
    shape1 Z = Z.to_nat 3 /\
    forall i, (i < Z.to_nat 3)%nat ->
      feasible (W1 S_plane) (W2 S_plane) [Q2Qc (1 # 2)] (column i Z).
Proof.
  apply (sample_z_feasible 3 [Q2Qc (1 # 2)] (W1 S_plane) (W2 S_plane)
           (np_zeros 1) world0).
  - apply wf2_col_of.
  - reflexivity.
  - lia.
  - reflexivity.
  - intros Hout. vm_compute in Hout. discriminate Hout.
Defined.

Lemma sample_z_steps_witness :
  let y := [Q2Qc (1 # 2)] in
  let sig := step_size (W2 S_plane) (np_dot_mv (W1 S_plane) y) (np_zeros 1) in
  let st := (np_zeros 1, generator world0) in
  let burn := Z.to_nat (10 * 3) in
  exists Z : array2,
    sample_z 3 y (W1 S_plane) (W2 S_plane) world0 =
      (Ok Z,
       World (chain sig (W1 S_plane) (W2 S_plane) y (burn + Z.to_nat 3) st).2
         (warnings_log world0)) /\
    wf2 Z /\
    shape0 Z = (shape0 (W1 S_plane) - shape1 (W1 S_plane))%nat /\
    shape1 Z = Z.to_nat 3 /\
    (forall i, (i < Z.to_nat 3)%nat ->
       column i Z = (chain sig (W1 S_plane) (W2 S_plane) y (burn + i + 1) st).1) /\
    (forall k, chain sig (W1 S_plane) (W2 S_plane) y (S k) st =
       walk_step sig (W1 S_plane) (W2 S_plane) y
         (chain sig (W1 S_plane) (W2 S_plane) y k st)) /\
    (forall z g,
       let e := (np_random_normal (length z) g).1 in
       let cand := vadd z (vscale sig e) in
       (walk_step sig (W1 S_plane) (W2 S_plane) y (z, g)).1 =
         if inside (W2 S_plane) (np_dot_mv (W1 S_plane) y) cand then cand else z) /\
    (forall cand,
       inside (W2 S_plane) (np_dot_mv (W1 S_plane) y) cand = true <->
       Forall (fun t => - 1 <= t /\ t <= 1)
         (vadd (np_dot_mv (W2 S_plane) cand) (np_dot_mv (W1 S_plane) y))).
Proof.
  apply (sample_z_steps 3 [Q2Qc (1 # 2)] (W1 S_plane) (W2 S_plane)
           (np_zeros 1) world0); [lia | reflexivity | reflexivity].
Defined.

(** ** Reshaping *)

Lemma chunks_concat (c : nat) (ls : list vec) :
  Forall (fun l => length l = c) ls -> chunks (length ls) c (concat ls) = ls.
Proof.
  induction 1 as [|l ls Hl _ IH]; simpl; [done |].
  rewrite take_app_length' by done.
  rewrite drop_app_length' by done.
  by rewrite IH.
Qed.

Lemma chunks_concat_length (r c : nat) (ls : list vec) :
  length ls = r -> Forall (fun l => length l = c) ls ->
  chunks r c (concat ls) = ls.
Proof. intros <-. apply chunks_concat. Qed.

Lemma reshape2_ravel (A : array2) :
  wf2 A -> reshape2 (shape0 A) (shape1 A) (ravel A) = A.
Proof.
  destruct A as [r c rs]. intros [Hlen Hrows]; simpl in *.
  unfold reshape2, ravel; simpl. subst r. by rewrite chunks_concat.
Qed.

(** ** [zonotope_vertices] *)

Section VerticesLemmas.
Context `{External}.

Lemma sign_vector_length (W1 : array2) (x : vec) :
  sign_vector_of W1 x -> length x = shape0 W1.
Proof.
  intros (yv & _ & ->). unfold np_dot_vm. simpl.
  by rewrite !length_map, length_seq.
Qed.

(** [zonotope_vertices] never raises, leaves the warnings alone, and returns
    as [X] the list of sign vectors it collected and as [Y] their images. *)
Lemma zonotope_vertices_run (W1 : array2) (NY : nat) (w : world) :
  exists (Xlist : list vec) (w' : world),
    let X := Arr2 (length Xlist) (shape0 W1) Xlist in
    zonotope_vertices W1 NY w =
      (Ok (reshape2 (length Xlist) (shape1 W1) (ravel (np_dot X W1)), X), w') /\
    warnings_log w' = warnings_log w /\
    Forall (sign_vector_of W1) Xlist.
Proof.
  set (body := fun (_ : nat) '(Xlist, nzv) =>
         y ← normal (shape1 W1);
         let x := map np_sign (np_dot_vm y (transpose W1)) in
         let addx := negb (seen x Xlist) in
         mret (if addx then (Xlist ++ [x], S nzv) else (Xlist, nzv))).
  destruct (py_for_from_inv
              (fun (acc : list vec * nat) w' =>
                 acc.2 = length acc.1 /\ Forall (sign_vector_of W1) acc.1 /\
                 warnings_log w' = warnings_log w)
              body) with (n := NY) (i := 0%nat) (acc := ([] : list vec, 0%nat))
              (w := w)
    as ([Xlist k] & w' & Hrun & Hk & Hall & Hlog).
  { intros j [Xl k] w1 (Hk & Hall & Hlog); simpl in *.
    pose proof (np_random_normal_length (shape1 W1) (generator w1)) as Hy.
    destruct (np_random_normal (shape1 W1) (generator w1)) as [yv g'] eqn:Hdraw.
    simpl in Hy.
    set (x := map np_sign (np_dot_vm yv (transpose W1))).
    exists (if negb (seen x Xl) then (Xl ++ [x], S k) else (Xl, k)),
      (World g' (warnings_log w1)).
    split.
    { unfold body. erewrite py_bind_Ok; [| apply normal_run].
      rewrite Hdraw. reflexivity. }
    destruct (negb (seen x Xl)); simpl.
    - split; [rewrite length_app; simpl; lia |]. split; [|done].
      apply Forall_app. split; [done |].
      constructor; [|constructor]. by exists yv.
    - done. }
  { simpl. split; [done |]. split; [constructor | done]. }
  simpl in Hk. subst k.
  exists Xlist, w'. cbv zeta. split; [|by split].
  unfold zonotope_vertices, py_for. fold body.
  rewrite (py_bind_Ok _ _ _ _ _ Hrun). cbn beta iota. rewrite py_ret_run.
  assert (reshape2 (length Xlist) (shape0 W1) (concat Xlist)
          = Arr2 (length Xlist) (shape0 W1) Xlist) as ->; [|done].
  unfold reshape2. f_equal. apply chunks_concat.
  simpl in Hall. eapply List.Forall_impl; [|exact Hall]. apply sign_vector_length.
Qed.

End VerticesLemmas.

(** ** Sign vectors *)

Lemma Forall_sign_value_map (v : vec) : Forall sign_value (map np_sign v).
Proof. apply Forall_map, Forall_forall. intros x _. apply np_sign_values. Qed.

Lemma sign_value_opp (c : Qc) : sign_value c -> sign_value (- c).
Proof.
  intros [-> | [-> | ->]]; unfold sign_value.
  - right; right. ring.
  - right; left. ring.
  - by left.
Qed.

(** C9, as the code has it: a component of a sign vector ([xl], [xu] of
    [interval_endpoints], a row of [X] of [zonotope_vertices]) is -1, 0 or 1;
    it is [np.sign] (or its opposite, for [xl]) of the matching entry of [W1]
    or of the projected direction, and [np.sign] gives 0 on 0 and on nothing
    else, so a zero entry is kept as a zero component. *)
Theorem sign_vectors_components `{External} (W1 : array2) (NY : nat)
    (w : world) :
  wf2 W1 ->
  (forall c : Qc, sign_value (np_sign c) /\ (np_sign c = 0 <-> c = 0)) /\
  (shape1 W1 = 1%nat ->
   exists (Y : array2) (xl xu : vec),
     interval_endpoints W1 = Ok (Y, Arr2 2 (shape0 W1) [xl; xu]) /\
     xu = map np_sign (column 0 W1) /\
     xl = map Qcopp xu /\
     Forall sign_value xl /\ Forall sign_value xu) /\
  (exists (Y X : array2) (w' : world),
     zonotope_vertices W1 NY w = (Ok (Y, X), w') /\
     Forall (fun x => sign_vector_of W1 x /\ Forall sign_value x) (rows X)).
Proof.
  intros Hwf. split; [|split].
  - intros c. split; [apply np_sign_values | apply np_sign_zero_iff].
  - intros Hn.
    pose proof (shape0_one_column W1 Hwf) as Hm.
    destruct (interval_endpoints_col (column 0 W1)) as (_ & _ & Hval).
    rewrite <- (one_column W1 Hwf Hn), Hm in Hval.
    eexists _, _, _. split; [exact Hval |].
    split; [done |]. split; [done |]. split.
    + apply Forall_map, Forall_forall. intros c Hc. apply sign_value_opp.
      revert c Hc. apply Forall_forall, Forall_sign_value_map.
    + apply Forall_sign_value_map.
  - destruct (zonotope_vertices_run W1 NY w) as (Xlist & w' & Hrun & _ & Hall).
    eexists _, _, w'. split; [exact Hrun |]. simpl.
    eapply List.Forall_impl; [|exact Hall].
    intros x Hx. split; [done |].
    destruct Hx as (yv & _ & ->). apply Forall_sign_value_map.
Qed.

Lemma sign_vectors_components_witness :
  (forall c : Qc, sign_value (np_sign c) /\ (np_sign c = 0 <-> c = 0)) /\
  (shape1 W1_tie = 1%nat ->
   exists (Y : array2) (xl xu : vec),
     interval_endpoints W1_tie = Ok (Y, Arr2 2 (shape0 W1_tie) [xl; xu]) /\
     xu = map np_sign (column 0 W1_tie) /\
     xl = map Qcopp xu /\
     Forall sign_value xl /\ Forall sign_value xu) /\
  (exists (Y X : array2) (w' : world),
     zonotope_vertices W1_tie 4 world0 = (Ok (Y, X), w') /\
     Forall (fun x => sign_vector_of W1_tie x /\ Forall sign_value x) (rows X)).
Proof. apply (sign_vectors_components W1_tie 4 world0), wf2_col_of. Defined.

(** C9 as stated fails: on the column [[0], [1]] the sign vector [xu] has a
    zero component. *)
Lemma sign_vectors_counterexample :
  exists (Y X : array2),
    interval_endpoints W1_tie = Ok (Y, X) /\
    ~ Forall (Forall (fun c => c = - 1 \/ c = 1)) (rows X).
Proof.
  eexists _, _. split; [reflexivity |].
  simpl. intros Hall.
  apply Forall_cons_iff in Hall as [_ Hall].
  apply Forall_cons_iff in Hall as [Hxu _].
  apply Forall_cons_iff in Hxu as [[Hc|Hc] _]; vm_compute in Hc; discriminate Hc.
Qed.

(** ** [rotate_x]: the number of points and the row index *)

Lemma length_chunks (r c : nat) (l : vec) : length (chunks r c l) = r.
Proof. revert l. induction r as [|r IH]; intros l; simpl; [done | by rewrite IH]. Qed.

Lemma chunks_singletons (l : vec) : chunks (length l) 1 l = map (fun x => [x]) l.
Proof.
  induction l as [|x l IH]; simpl; [done |].
  rewrite drop_0. by rewrite IH.
Qed.

Lemma np_kron_arange_ones (NY N : nat) :
  np_kron (np_arange NY) (replicate N 1) = row_index NY N.
Proof.
  unfold np_kron, np_arange, row_index.
  generalize (seq 0 NY) as l. induction l as [|r l IH]; simpl; [done |].
  rewrite IH. f_equal.
  generalize (Qc_of_Z (Z.of_nat r)) as x. intros x. clear.
  induction N as [|N IHN]; simpl; [done |].
  rewrite IHN. f_equal. ring.
Qed.

Lemma length_row_index (NY N : nat) : length (row_index NY N) = (N * NY)%nat.
Proof.
  unfold row_index.
  assert (forall l : list nat,
            length (flat_map (fun r => replicate N (Qc_of_Z (Z.of_nat r))) l)
            = (N * length l)%nat) as Hl.
  { induction l as [|r l IH]; simpl; [lia |].
    rewrite length_app, length_replicate, IH. lia. }
  by rewrite Hl, length_seq.
Qed.

(** In the row index, the number of a row occurs [N] times. *)
Lemma count_row_index (NY N r : nat) :
  (r < NY)%nat ->
  length (filter (fun x => x = Qc_of_Z (Z.of_nat r)) (row_index NY N)) = N.
Proof.
  unfold row_index. intros Hr.
  assert (forall (l : list nat),
            NoDup l ->
            length (filter (fun x => x = Qc_of_Z (Z.of_nat r))
                      (flat_map (fun r' => replicate N (Qc_of_Z (Z.of_nat r'))) l))
            = if decide (r ∈ l) then N else 0%nat) as Hcount.
  { induction 1 as [|a l Ha Hnd IH].
    - reflexivity.
    - cbn [flat_map]. rewrite list.filter_app, length_app, IH.
      destruct (decide (a = r)) as [->|Hne].
      + rewrite (decide_False (P := r ∈ l)) by done.
        rewrite decide_True by apply list_elem_of_here.
        rewrite Nat.add_0_r.
        clear. induction N as [|N IHN]; simpl; [done |].
        rewrite filter_cons_True by done. simpl. by rewrite IHN.
      + assert (length (filter (fun x => x = Qc_of_Z (Z.of_nat r))
                          (replicate N (Qc_of_Z (Z.of_nat a)))) = 0%nat) as ->.
        { clear -Hne. induction N as [|N IHN]; simpl; [done |].
          rewrite filter_cons_False; [done |].
          intros Heq%Z2Qc_inj. lia. }
        simpl. destruct (decide (r ∈ l)) as [Hin|Hnin].
        * rewrite decide_True; [done | by apply list_elem_of_further].
        * rewrite decide_False; [done |].
          intros [?|?]%elem_of_cons; congruence. }
  rewrite Hcount by apply NoDup_seq.
  rewrite decide_True; [done |]. apply elem_of_seq. lia.
Qed.

Lemma rotate_x_count (Y : array2) (Z : array3) (W : array2) :
  let NY := shape0 Y in
  let N := dim2 Z in
  shape0 (rotate_x Y Z W).1 = (N * NY)%nat /\
  length (rows (rotate_x Y Z W).1) = (N * NY)%nat /\
  (rotate_x Y Z W).2 =
    Arr2 (N * NY) 1 (map (fun x => [x]) (row_index NY N)).
Proof.
  intros NY N. unfold rotate_x. cbn [fst snd]. fold NY N.
  split; [done |]. split; [apply length_chunks |].
  unfold reshape2. f_equal.
  rewrite np_kron_arange_ones, <- (length_row_index NY N).
  apply chunks_singletons.
Qed.

(** ** [inverse] *)

Section TypeCheck.
Context `{External}.

(** C7, as the code has it: the only check on [N] is [type(N) is int].  An
    [N] of another type makes [inverse] raise [TypeError] whatever the map
    class, with no draw made and no warning emitted; an [N] of type [int],
    of any sign, passes the check and goes to [regularize_z]. *)
Theorem inverse_type_check (cls : map_class) (D : domain) (Y Y' : array2)
    (a b : nat) (N : pyobj) (w : world) :
  process_inputs Y = Ok (Y', a, b) ->
  (is_int N = false -> inverse cls D Y (Some N) w = (Raise TypeError, w)) /\
  (forall n : Z, N = PyInt n ->
     inverse cls D Y (Some N) w =
       (Z ← regularize_z cls D Y' n;
        mret (rotate_x Y' Z (eigenvectors (dom_subspaces D)))) w).
Proof.
  intros Hin. split.
  - intros HN. unfold inverse.
    erewrite py_bind_Ok; [| unfold lift; rewrite Hin; reflexivity].
    cbn beta iota delta [id default from_option].
    destruct N; try reflexivity. discriminate HN.
  - intros n ->. unfold inverse.
    erewrite py_bind_Ok; [| unfold lift; rewrite Hin; reflexivity].
    reflexivity.
Qed.

End TypeCheck.

Lemma inverse_type_check_witness :
  (is_int (PyFloat 1) = false ->
   inverse BoundedActiveVariableMap (UnboundedActiveVariableDomain S_plane)
     Y_two (Some (PyFloat 1)) world0 = (Raise TypeError, world0)) /\
  (forall n : Z, PyFloat 1 = PyInt n ->
     inverse BoundedActiveVariableMap (UnboundedActiveVariableDomain S_plane)
       Y_two (Some (PyFloat 1)) world0 =
       (Z ← regularize_z BoundedActiveVariableMap
              (UnboundedActiveVariableDomain S_plane) Y_two n;
        mret (rotate_x Y_two Z
                (eigenvectors (dom_subspaces (UnboundedActiveVariableDomain S_plane)))))
         world0).
Proof.
  apply (inverse_type_check BoundedActiveVariableMap
           (UnboundedActiveVariableDomain S_plane) Y_two Y_two 2 1
           (PyFloat 1) world0).
  reflexivity.
Defined.

(** C7 as stated fails: [N = 0] is no positive integer, yet [inverse]
    returns (an empty result); and [N = -1] is refused only inside the
    sampler, by [np.zeros], with a [ValueError]. *)
Lemma inverse_type_check_counterexample :
  (exists (X ind : array2) (w' : world),
     inverse BoundedActiveVariableMap (UnboundedActiveVariableDomain S_plane)
       Y_two (Some (PyInt 0)) world0 = (Ok (X, ind), w') /\
     rows X = [] /\ rows ind = []) /\
  (exists w' : world,
     inverse BoundedActiveVariableMap (UnboundedActiveVariableDomain S_plane)
       Y_two (Some (PyInt (-1))) world0 = (Raise ValueError, w')).
Proof.
  split.
  - eexists _, _, _. split; [vm_compute; reflexivity |]. split; reflexivity.
  - eexists. vm_compute. reflexivity.
Qed.

(** ** Construction of the bounded domain *)

Section DomainProperties.
Context `{External}.

(** C8: for [n > 1] the constructor enumerates the vertices, compares their
    number with [nzv(m, n)] and, when they differ, emits one warning and goes
    on with the vertices found; whether it returns depends on the convex hull
    alone.  When the hull is built, the domain holds the vertices found, the
    hull, and the constraint [(A, b)] cut from the hull's facet equations:
    [A] their first [n] columns, [b] their column [n]. *)
Theorem bounded_domain_zonotope (S : subspaces) (w : world) :
  let m := shape0 (W1 S) in
  let n := shape1 (W1 S) in
  (1 <= m)%nat -> (1 < n)%nat ->
  exists (Y X : array2) (w1 : world) (numverts : Qc) (M : array2),
    zonotope_vertices (W1 S) default_NY w = (Ok (Y, X), w1) /\
    nzv m n None = Ok (numverts, M) /\
    let found := shape0 Y in
    let log :=
      warnings_log w ++
      (if decide (Qc_of_Z (Z.of_nat found) <> numverts)
       then [VertexCountWarning numverts found] else []) in
    let w2 := World (generator w1) log in
    match ConvexHull_equations Y with
    | Raise e => BoundedActiveVariableDomain S w = (Raise e, w2)
    | Ok E =>
        match getcol E n with
        | Raise e => BoundedActiveVariableDomain S w = (Raise e, w2)
        | Ok b =>
            let c := Ineq (cols_before n E) b in
            BoundedActiveVariableDomain S w =
              (Ok (Domain S m n (Some Y) (Some X) (Some (Hull E)) (Some c)), w2) /\
            (forall x, con_fun c x =
               zip_with Qcminus (np_dot_mv (cols_before n E) x) (column n E)) /\
            (forall x, con_jac c x = cols_before n E)
        end
    end.
Proof.
  intros m n Hm Hn.
  destruct (zonotope_vertices_run (W1 S) default_NY w)
    as (Xlist & w1 & Hrun & Hlog & _).
  cbv zeta in Hrun.
  set (X := Arr2 (length Xlist) (shape0 (W1 S)) Xlist) in *.
  set (Y := reshape2 (length Xlist) (shape1 (W1 S)) (ravel (np_dot X (W1 S)))) in *.
  destruct (nzv_fresh m n) as [M HM]; [lia | lia |].
  exists Y, X, w1, (Qc_of_Z (count m n)), M.
  split; [exact Hrun |]. split; [exact HM |].
  cbv zeta. rewrite <- Hlog.
  set (w2 := World (generator w1) _).
  (* the part of the constructor before the hull is built *)
  assert (forall (A : Type) (k : array2 -> py A) (K : A -> py domain),
            ((_ ← (if decide (Qc_of_Z (Z.of_nat (shape0 Y)) <> Qc_of_Z (count m n))
                   then warn (VertexCountWarning (Qc_of_Z (count m n)) (shape0 Y))
                   else mret tt);
              E ← lift (ConvexHull_equations Y); k E) ≫= K) w1
            = ((E ← lift (ConvexHull_equations Y); k E) ≫= K) w2) as Hwarn.
  { intros A k K. rewrite py_bind_assoc. unfold w2.
    destruct (decide (Qc_of_Z (Z.of_nat (shape0 Y)) <> Qc_of_Z (count m n))).
    - erewrite py_bind_Ok; [| reflexivity]. reflexivity.
    - erewrite py_bind_Ok; [| reflexivity].
      rewrite app_nil_r. by destruct w1. }
  unfold BoundedActiveVariableDomain. fold m n.
  rewrite decide_False by lia.
  rewrite py_bind_assoc.
  erewrite py_bind_Ok; [| exact Hrun]. cbn beta iota.
  rewrite py_bind_assoc.
  erewrite py_bind_Ok; [| unfold lift; rewrite HM; reflexivity].
  cbn beta iota. rewrite Hwarn. clear Hwarn.
  rewrite py_bind_assoc.
  destruct (ConvexHull_equations Y) as [E|e] eqn:HE.
  - erewrite py_bind_Ok; [| reflexivity].
    rewrite py_bind_assoc.
    destruct (getcol E n) as [b|e] eqn:Hb.
    + erewrite py_bind_Ok; [| reflexivity].
      split; [reflexivity |]. split; [|reflexivity].
      intros x. unfold con_fun. cbn [con_A con_b].
      unfold getcol in Hb. case_decide; [|discriminate Hb].
      by injection Hb as <-.
    + erewrite py_bind_Raise; [reflexivity |]. reflexivity.
  - erewrite py_bind_Raise; [reflexivity |]. reflexivity.
Qed.

End DomainProperties.

(** ** Sums and inner products *)

Lemma dot_nil_r (u : vec) : dot u [] = 0.
Proof. unfold dot. by destruct u. Qed.

Lemma dot_cons (a b : Qc) (u v : vec) : dot (a :: u) (b :: v) = a * b + dot u v.
Proof. reflexivity. Qed.

Lemma nth_S_tl (b : nat) (r : vec) : nth (S b) r 0 = nth b (tl r) 0.
Proof. destruct r; [by destruct b | done]. Qed.

Lemma dot_cons_l (a : Qc) (u r : vec) :
  dot (a :: u) r = a * nth 0 r 0 + dot u (tl r).
Proof.
  destruct r as [|h t]; cbn [nth tl].
  - rewrite !dot_nil_r. ring.
  - apply dot_cons.
Qed.

Lemma dot_map_zero {A : Type} (l : list A) (c : vec) : dot (map (fun _ => 0) l) c = 0.
Proof.
  revert c. induction l as [|x l IH]; intros [|y c]; simpl; try done.
  rewrite dot_cons, IH. ring.
Qed.

Lemma dot_map_linear {A : Type} (a : Qc) (f g : A -> Qc) (l : list A) (c : vec) :
  dot (map (fun r => a * f r + g r) l) c = a * dot (map f l) c + dot (map g l) c.
Proof.
  revert c. induction l as [|x l IH]; intros [|y c]; simpl;
    try (unfold dot; simpl; ring).
  rewrite !dot_cons, IH. ring.
Qed.

(** Exchange of the two sums in [(W·v)·c]: the inner product of [W·v] with
    [c] is the combination, by [v], of the inner products of the columns of
    [W] with [c]. *)
Lemma dot_matvec (v : vec) (rs : list vec) (c : vec) :
  dot (map (dot v) rs) c =
  dot v (map (fun b => dot (map (fun r => nth b r 0) rs) c) (seq 0 (length v))).
Proof.
  revert rs. induction v as [|a v IH]; intros rs.
  - simpl. rewrite (map_ext _ (fun _ => 0)) by done. apply dot_map_zero.
  - rewrite (map_ext _ (fun r => a * nth 0 r 0 + dot v (tl r)))
      by (intros; apply dot_cons_l).
    rewrite dot_map_linear.
    cbn [length seq map]. rewrite dot_cons. f_equal.
    rewrite <- (map_map tl (dot v)), IH.
    rewrite <- seq_shift, map_map. f_equal.
    apply map_ext. intros b. f_equal.
    rewrite map_map. apply map_ext. intros r. by rewrite nth_S_tl.
Qed.

Lemma dot_map_zero_r {A : Type} (v : vec) (l : list A) :
  dot v (map (fun _ => 0) l) = 0.
Proof.
  revert l. induction v as [|x v IH]; intros [|i l]; simpl; try done.
  rewrite dot_cons, IH. ring.
Qed.

Lemma dot_unit (v : vec) (j : nat) :
  (j < length v)%nat ->
  dot v (map (fun b => if decide (b = j) then 1 else 0) (seq 0 (length v))) = nth j v 0.
Proof.
  revert j. induction v as [|a v IH]; intros j Hj; simpl in Hj; [lia |].
  cbn [length seq map]. rewrite dot_cons, <- seq_shift, map_map.
  destruct j as [|j]; cbn [nth].
  - rewrite (map_ext _ (fun _ => 0)) by (intros b; by rewrite decide_False by lia).
    rewrite dot_map_zero_r, decide_True by done. ring.
  - rewrite (map_ext _ (fun b => if decide (b = j) then 1 else 0)).
    + rewrite IH, decide_False by lia. ring.
    + intros b. destruct (decide (b = j)) as [->|Hne].
      * by rewrite decide_True.
      * by rewrite decide_False by lia.
Qed.

(** ** Indexing lists of equal-length lists *)

Lemma map_nth_seq {A B : Type} (f : A -> B) (l : list A) (d : A) :
  map (fun j => f (nth j l d)) (seq 0 (length l)) = map f l.
Proof.
  induction l as [|x l IH]; [done |].
  cbn [length seq map nth]. f_equal.
  rewrite <- seq_shift, map_map. exact IH.
Qed.

Lemma nth_concat_uniform (c : nat) (ls : list vec) (r k : nat) :
  Forall (fun l => length l = c) ls -> (k < c)%nat ->
  nth (r * c + k) (concat ls) 0 = nth k (nth r ls []) 0.
Proof.
  intros Hall Hk. revert r.
  induction Hall as [|l ls Hl _ IH]; intros r.
  - cbn [concat]. rewrite (nth_overflow (A := vec)) by (simpl; lia).
    by rewrite !nth_overflow by (simpl; lia).
  - destruct r as [|r]; cbn [concat nth].
    + rewrite app_nth1 by lia. done.
    + rewrite app_nth2 by lia.
      replace (S r * c + k - length l)%nat with (r * c + k)%nat by lia.
      apply IH.
Qed.

Lemma nth_replicate_lt (N k : nat) (x : Qc) : (k < N)%nat -> nth k (replicate N x) 0 = x.
Proof.
  intros Hk. apply nth_lookup_Some with (d := 0).
  by apply lookup_replicate_2.
Qed.

(** Row [c] of [W] is column [c] of [W.T]. *)
Lemma column_transpose (W : array2) (c : nat) :
  wf2 W -> (c < shape0 W)%nat -> column c (transpose W) = nth c (rows W) [].
Proof.
  intros [Hlen Hrows] Hc. unfold column, transpose; cbn [rows].
  rewrite map_map.
  assert (length (nth c (rows W) []) = shape1 W) as Hr.
  { rewrite Forall_forall in Hrows. apply Hrows, nth_In. lia. }
  rewrite <- Hr.
  transitivity (map (fun j => nth j (nth c (rows W) []) 0)
                  (seq 0 (length (nth c (rows W) [])))).
  - apply map_ext. intros j. unfold column.
    generalize (rows W) as rs. clear. intros rs. revert c.
    induction rs as [|r rs IH]; intros [|c]; simpl; try done; by destruct j.
  - rewrite (map_nth_seq (fun x => x)). apply map_id.
Qed.

Lemma length_concat_uniform (c : nat) (ls : list vec) :
  Forall (fun l => length l = c) ls -> length (concat ls) = (length ls * c)%nat.
Proof.
  induction 1 as [|l ls Hl _ IH]; simpl; [done |].
  rewrite length_app, IH. lia.
Qed.

Lemma nth_map_nth {A : Type} (j r : nat) (ps : list (list (list A))) :
  nth r (map (fun p => nth j p []) ps) [] = nth j (nth r ps []) [].
Proof.
  revert r. induction ps as [|p ps IH]; intros [|r]; simpl; try done; by destruct j.
Qed.

(** ** The rows that [rotate_x] multiplies by [W.T] *)

Section RotateRows.
Variables (Y : array2) (Z : array3).
Hypothesis HY : wf2 Y.
Hypothesis HZ : wf3 Z.
Hypothesis Hdim : dim0 Z = shape0 Y.

Let NY := shape0 Y.
Let n := shape1 Y.
Let N := dim2 Z.
Let m := (n + dim1 Z)%nat.
Let C := concatenate1 (tile_last Y N) Z.

(** Plane [r] of the concatenation: the entries of [Y[r]], each repeated
    [N] times, over the rows of [Z[r]]. *)
Lemma concatenate1_plane (r : nat) :
  (r < NY)%nat ->
  nth r (planes C) [] =
    map (replicate N) (nth r (rows Y) []) ++ nth r (planes Z) [].
Proof.
  intros Hr. unfold C, concatenate1, tile_last; cbn [planes].
  destruct HY as [HlenY _]. destruct HZ as [HlenZ _].
  fold NY in HlenY. rewrite Hdim in HlenZ. fold NY in HlenZ.
  destruct (lookup_lt_is_Some_2 (rows Y) r) as [yr Hyr]; [lia |].
  destruct (lookup_lt_is_Some_2 (planes Z) r) as [zr Hzr]; [lia |].
  rewrite (nth_lookup_Some _ _ [] _ Hyr), (nth_lookup_Some _ _ [] _ Hzr).
  apply nth_lookup_Some.
  rewrite lookup_zip_with, list_lookup_fmap, Hyr, Hzr. reflexivity.
Qed.

Lemma concatenate1_planes_wf :
  length (planes C) = NY /\
  Forall (fun p => length p = m /\ Forall (fun v => length v = N) p) (planes C).
Proof.
  unfold C, concatenate1, tile_last; cbn [planes].
  destruct HY as [HlenY HrowsY]. destruct HZ as [HlenZ HplanesZ].
  split.
  - rewrite length_zip_with, length_map. fold NY in HlenY. lia.
  - rewrite Hdim in HlenZ. rewrite <- HlenY in HlenZ. clear HlenY.
    revert HlenZ HplanesZ. generalize (planes Z) as zs.
    induction HrowsY as [|yr ys Hyr _ IH]; intros [|zr zs] Hlen Hzs;
      simpl in *; try constructor.
    + apply Forall_cons_iff in Hzs as [[Hzr1 Hzr2] _].
      split.
      * rewrite length_app, length_map. unfold m, n. lia.
      * apply Forall_app. split; [|exact Hzr2].
        apply Forall_map, Forall_forall. intros x _. apply length_replicate.
    + apply IH; [lia |]. by apply Forall_cons_iff in Hzs as [_ ?].
Qed.

(** Row [r N + k] of the array [YZ]: [Y[r]] followed by [Z[r, :, k]]. *)
Lemma rotate_x_coordinates (r k : nat) :
  (r < NY)%nat -> (k < N)%nat ->
  rows (transpose
          (reshape2 m (N * NY) (ravel3 (transpose102 C)))) !! (r * N + k)%nat
  = Some (nth r (rows Y) [] ++ draw Z r k).
Proof.
  intros Hr Hk.
  destruct concatenate1_planes_wf as [HlenC HwfC].
  assert (dim1 C = m) as Hd1 by reflexivity.
  (* the reshape keeps the planes of the transposed array, flattened *)
  assert (rows (reshape2 m (N * NY) (ravel3 (transpose102 C)))
          = map (fun j => concat (map (fun p => nth j p []) (planes C))) (seq 0 m))
    as Hrows.
  { unfold reshape2, ravel3, transpose102; cbn [rows planes]. rewrite Hd1.
    rewrite map_map.
    apply chunks_concat_length; [by rewrite length_map, length_seq |].
    apply Forall_map, Forall_forall. intros j Hj%in_seq.
    rewrite (length_concat_uniform N).
    - rewrite length_map, HlenC. lia.
    - apply Forall_map. eapply List.Forall_impl; [|exact HwfC].
      intros p [Hp1 Hp2]. cbv beta.
      rewrite Forall_forall in Hp2. apply Hp2, nth_In. lia. }
  unfold transpose at 1. cbn [rows shape1 reshape2].
  rewrite list_lookup_fmap, lookup_seq_lt by nia. cbn [fmap option_fmap option_map].
  f_equal. unfold column. rewrite Hrows, map_map.
  transitivity (map (fun v => nth k v 0) (nth r (planes C) [])).
  - rewrite <- (map_nth_seq (fun v => nth k v 0) (nth r (planes C) []) []).
    assert (length (nth r (planes C) []) = m) as ->.
    { rewrite Forall_forall in HwfC. apply HwfC, nth_In. lia. }
    apply map_ext_in. intros j Hj%in_seq. cbv beta.
    rewrite (nth_concat_uniform N _ r k); [| |done].
    + by rewrite nth_map_nth.
    + apply Forall_map. eapply List.Forall_impl; [|exact HwfC].
      intros p [Hp1 Hp2]. cbv beta.
      rewrite Forall_forall in Hp2. apply Hp2, nth_In. lia.
  - rewrite concatenate1_plane by done.
    rewrite map_app, map_map. unfold draw. f_equal.
    rewrite (map_ext _ (fun x => x)); [apply map_id |].
    intros x. by apply nth_replicate_lt.
Qed.

End RotateRows.

(** Row [r N + k] of the points [rotate_x] returns: [W] applied to the
    coordinates [Y[r]], [Z[r, :, k]]. *)
Lemma rotate_x_point (Y : array2) (Z : array3) (W : array2) (r k : nat) :
  wf2 Y -> wf3 Z -> dim0 Z = shape0 Y ->
  wf2 W -> shape0 W = (shape1 Y + dim1 Z)%nat ->
  (r < shape0 Y)%nat -> (k < dim2 Z)%nat ->
  rows (rotate_x Y Z W).1 !! (r * dim2 Z + k)%nat
  = Some (map (dot (nth r (rows Y) [] ++ draw Z r k)) (rows W)).
Proof.
  intros HY HZ Hdim HW HmW Hr Hk.
  unfold rotate_x. cbn [fst].
  set (YZ := transpose _).
  assert (length (rows YZ) = (dim2 Z * shape0 Y)%nat) as HlenYZ.
  { unfold YZ, transpose; cbn [rows shape1 reshape2].
    by rewrite length_map, length_seq. }
  assert (rows (reshape2 (dim2 Z * shape0 Y) (shape1 Y + dim1 Z)
                  (ravel (np_dot YZ (transpose W))))
          = rows (np_dot YZ (transpose W))) as ->.
  { unfold reshape2, ravel; cbn [rows].
    apply chunks_concat_length.
    - unfold np_dot; cbn [rows]. by rewrite length_map.
    - unfold np_dot; cbn [rows shape1 transpose].
      apply Forall_map, Forall_forall. intros a _.
      rewrite length_map, length_seq. done. }
  unfold np_dot; cbn [rows shape1 transpose].
  rewrite list_lookup_fmap.
  unfold YZ. rewrite (rotate_x_coordinates Y Z HY HZ Hdim r k Hr Hk).
  cbn [fmap option_fmap option_map]. f_equal.
  destruct HW as [HlenW HrowsW].
  rewrite <- (map_nth_seq (dot (nth r (rows Y) [] ++ draw Z r k)) (rows W) []).
  rewrite HlenW.
  apply map_ext_in. intros c Hc%in_seq. f_equal.
  change (column c (transpose W) = nth c (rows W) []).
  apply column_transpose; [by split | lia].
Qed.

(** The columns of [[A | B]]. *)
Lemma column_hstack_l (A B : array2) (j : nat) :
  wf2 A -> wf2 B -> shape0 A = shape0 B -> (j < shape1 A)%nat ->
  column j (np_hstack A B) = column j A.
Proof.
  intros [HlenA HrowsA] [HlenB _] Hsh Hj.
  unfold column, np_hstack; cbn [rows].
  assert (length (rows A) = length (rows B)) as Hlen by lia.
  clear HlenA HlenB Hsh. revert Hlen. generalize (rows B) as bs.
  induction HrowsA as [|a rsA Ha _ IH]; intros [|b bs] Hlen; simpl in *;
    try done.
  rewrite app_nth1 by lia. f_equal. apply IH. lia.
Qed.

Lemma column_hstack_r (A B : array2) (j : nat) :
  wf2 A -> wf2 B -> shape0 A = shape0 B ->
  column (shape1 A + j) (np_hstack A B) = column j B.
Proof.
  intros [HlenA HrowsA] [HlenB _] Hsh.
  unfold column, np_hstack; cbn [rows].
  assert (length (rows A) = length (rows B)) as Hlen by lia.
  clear HlenA HlenB Hsh. revert Hlen. generalize (rows B) as bs.
  induction HrowsA as [|a rsA Ha _ IH]; intros [|b bs] Hlen; simpl in *;
    try done.
  rewrite app_nth2 by lia.
  replace (shape1 A + j - length a)%nat with j by lia.
  f_equal. apply IH. lia.
Qed.

(** The columns of an orthogonal matrix are orthonormal. *)
Lemma orthogonal_columns (W : array2) (b j : nat) :
  orthogonal W -> (b < shape1 W)%nat -> (j < shape1 W)%nat ->
  dot (column b W) (column j W) = if decide (b = j) then 1 else 0.
Proof.
  intros [_ Heq] Hb Hj.
  apply (f_equal rows) in Heq.
  unfold np_dot, transpose, np_eye in Heq; cbn [rows shape1] in Heq.
  rewrite map_map in Heq.
  apply (f_equal (fun l => l !! b)) in Heq.
  rewrite !list_lookup_fmap, lookup_seq_lt in Heq by done.
  cbn [fmap option_fmap option_map] in Heq. injection Heq as Heq.
  apply (f_equal (fun l => l !! j)) in Heq.
  rewrite !list_lookup_fmap, lookup_seq_lt in Heq by done.
  cbn [fmap option_fmap option_map] in Heq. by injection Heq as Heq.
Qed.

Lemma take_by_nth (u v : vec) :
  map (fun j => nth j (u ++ v) 0) (seq 0 (length u)) = u.
Proof.
  transitivity (map (fun x : Qc => x) u); [|apply map_id].
  rewrite <- (map_nth_seq (fun x => x) u 0).
  apply map_ext_in. intros j Hj%in_seq. rewrite app_nth1 by lia. done.
Qed.

Lemma drop_by_nth (u v : vec) :
  map (fun j => nth (length u + j) (u ++ v) 0) (seq 0 (length v)) = v.
Proof.
  transitivity (map (fun x : Qc => x) v); [|apply map_id].
  rewrite <- (map_nth_seq (fun x => x) v 0).
  apply map_ext_in. intros j Hj%in_seq. rewrite app_nth2 by lia.
  f_equal. lia.
Qed.

(** Projecting [W·v] on column [j] of an orthogonal [W] gives entry [j]
    of [v]. *)
Lemma dot_orthogonal (W : array2) (v : vec) (j : nat) :
  orthogonal W -> length v = shape1 W -> (j < shape1 W)%nat ->
  dot (map (dot v) (rows W)) (column j W) = nth j v 0.
Proof.
  intros HW Hv Hj. rewrite dot_matvec.
  rewrite <- (dot_unit v j) by lia. f_equal.
  apply map_ext_in. intros b Hb%in_seq.
  change (dot (column b W) (column j W) = if decide (b = j) then 1 else 0).
  apply orthogonal_columns; [done | lia | done].
Qed.

Lemma row_index_lookup (NY N r k : nat) :
  (r < NY)%nat -> (k < N)%nat ->
  row_index NY N !! (r * N + k)%nat = Some (Qc_of_Z (Z.of_nat r)).
Proof.
  intros Hr Hk.
  destruct (lookup_lt_is_Some_2 (row_index NY N) (r * N + k)) as [x Hx].
  { rewrite length_row_index. nia. }
  rewrite Hx. f_equal.
  rewrite <- (nth_lookup_Some _ _ 0 _ Hx).
  unfold row_index. rewrite flat_map_concat_map.
  rewrite (nth_concat_uniform N); [| |done].
  - rewrite (nth_indep _ [] (replicate N (Qc_of_Z (Z.of_nat 0))))
      by (rewrite length_map, length_seq; lia).
    rewrite (map_nth (fun r => replicate N (Qc_of_Z (Z.of_nat r)))).
    rewrite seq_nth by lia. by apply nth_replicate_lt.
  - apply Forall_map, Forall_forall. intros i _. apply length_replicate.
Qed.

Section RoundTrip.
Context `{External}.

(** C6: for an orthogonal [W = [W1 | W2]] and arrays [Y] (NY x n) and [Z]
    (NY x (m-n) x N), [forward] applied to the points of [rotate_x(Y, Z, W)]
    gives back the coordinates: the point of row [r] and draw [k], at index
    [r N + k] and marked [r] in the row index, projects on [W1] to [Y[r]] and
    on [W2] to [Z[r, :, k]]; in exact arithmetic the equalities are exact. *)
Theorem rotate_forward_roundtrip (D : domain) (Y : array2) (Z : array3)
    (a b : nat) :
  let S := dom_subspaces D in
  let W := eigenvectors S in
  let N := dim2 Z in
  let X := (rotate_x Y Z W).1 in
  let ind := (rotate_x Y Z W).2 in
  wf2 W -> orthogonal W ->
  wf2 (W1 S) -> wf2 (W2 S) -> shape0 (W1 S) = shape0 (W2 S) ->
  W = np_hstack (W1 S) (W2 S) ->
  wf2 Y -> wf3 Z -> dim0 Z = shape0 Y ->
  shape1 (W1 S) = shape1 Y -> shape1 (W2 S) = dim1 Z ->
  process_inputs X = Ok (X, a, b) ->
  exists Yf Zf : array2,
    forward D X = Ok (Yf, Zf) /\
    forall (r k : nat) (yr : vec),
      rows Y !! r = Some yr -> (k < N)%nat ->
      rows Yf !! (r * N + k)%nat = Some yr /\
      rows Zf !! (r * N + k)%nat = Some (draw Z r k) /\
      rows ind !! (r * N + k)%nat = Some [Qc_of_Z (Z.of_nat r)].
Proof.
  intros S W N X ind HW Horth HW1 HW2 Hsh0 Hstack HY HZ Hdim Hn1 Hn2 Hin.
  exists (np_dot X (W1 S)), (np_dot X (W2 S)).
  split.
  { unfold forward. fold S. rewrite Hin. reflexivity. }
  intros r k yr Hyr Hk.
  assert (r < shape0 Y)%nat as Hr.
  { destruct HY as [HlenY _]. rewrite <- HlenY. by eapply lookup_lt_Some. }
  assert (shape1 W = (shape1 Y + dim1 Z)%nat) as Hm1.
  { rewrite Hstack. cbn [np_hstack shape1]. lia. }
  assert (shape0 W = (shape1 Y + dim1 Z)%nat) as Hm0.
  { destruct Horth as [Hsq _]. lia. }
  pose proof (rotate_x_point Y Z W r k HY HZ Hdim HW Hm0 Hr Hk) as Hpoint.
  fold X N in Hpoint.
  rewrite (nth_lookup_Some _ _ [] _ Hyr) in Hpoint.
  set (v := yr ++ draw Z r k) in *.
  assert (length yr = shape1 Y) as Hlyr.
  { destruct HY as [_ HrowsY]. eapply Forall_lookup_1 in HrowsY; eauto. }
  assert (length (draw Z r k) = dim1 Z) as Hldraw.
  { unfold draw. rewrite length_map.
    destruct HZ as [HlenZ HplanesZ].
    rewrite Forall_forall in HplanesZ.
    apply HplanesZ, nth_In. lia. }
  assert (length v = shape1 W) as Hlv.
  { unfold v. rewrite length_app. lia. }
  split; [|split].
  - unfold np_dot; cbn [rows]. rewrite list_lookup_fmap, Hpoint.
    cbn [fmap option_fmap option_map]. f_equal.
    rewrite Hn1, <- Hlyr.
    rewrite <- (take_by_nth yr (draw Z r k)) at 2. fold v.
    apply map_ext_in. intros j Hj%in_seq.
    rewrite <- (column_hstack_l (W1 S) (W2 S)) by (done || lia).
    rewrite <- Hstack. fold W.
    apply dot_orthogonal; [done | done | lia].
  - unfold np_dot; cbn [rows]. rewrite list_lookup_fmap, Hpoint.
    cbn [fmap option_fmap option_map]. f_equal.
    rewrite Hn2, <- Hldraw.
    rewrite <- (drop_by_nth yr (draw Z r k)) at 2. fold v.
    apply map_ext_in. intros j Hj%in_seq.
    rewrite <- (column_hstack_r (W1 S) (W2 S)) by done.
    rewrite <- Hstack. fold W.
    rewrite Hn1, <- Hlyr.
    apply dot_orthogonal; [done | done | lia].
  - unfold ind.
    pose proof (rotate_x_count Y Z W) as (_ & _ & ->).
    cbn [rows]. rewrite list_lookup_fmap.
    fold N. rewrite row_index_lookup by done. reflexivity.
Qed.

End RoundTrip.

Lemma wf2_W_plane : wf2 W_plane.
Proof. split; [reflexivity | repeat constructor]. Qed.

Lemma orthogonal_W_plane : orthogonal W_plane.
Proof. split; [reflexivity | compute_done]. Qed.

Lemma wf3_Z_two : wf3 Z_two.
Proof. split; [reflexivity | repeat constructor]. Qed.

(** Two rows and two draws on the plane, rotated by [W_plane]. *)
Lemma rotate_forward_roundtrip_witness :
  let D := UnboundedActiveVariableDomain S_plane in
  let X := (rotate_x Y_two Z_two W_plane).1 in
  let ind := (rotate_x Y_two Z_two W_plane).2 in
  exists Yf Zf : array2,
    forward D X = Ok (Yf, Zf) /\
    forall (r k : nat) (yr : vec),
      rows Y_two !! r = Some yr -> (k < dim2 Z_two)%nat ->
      rows Yf !! (r * dim2 Z_two + k)%nat = Some yr /\
      rows Zf !! (r * dim2 Z_two + k)%nat = Some (draw Z_two r k) /\
      rows ind !! (r * dim2 Z_two + k)%nat = Some [Qc_of_Z (Z.of_nat r)].
Proof.
  apply (rotate_forward_roundtrip (UnboundedActiveVariableDomain S_plane)
           Y_two Z_two 4 2).
  - apply wf2_W_plane.
  - apply orthogonal_W_plane.
  - apply wf2_col_of.
  - apply wf2_col_of.
  - reflexivity.
  - reflexivity.
  - split; [reflexivity | repeat constructor].
  - apply wf3_Z_two.
  - reflexivity.
  - reflexivity.
  - reflexivity.
  - reflexivity.
Defined.

(** The constructor on three generators of the plane: [m = 3], [n = 2]. *)
Lemma bounded_domain_zonotope_witness :
  let S := S_eye3 in
  let m := shape0 (W1 S) in
  let n := shape1 (W1 S) in
  exists (Y X : array2) (w1 : world) (numverts : Qc) (M : array2),
    zonotope_vertices (W1 S) default_NY world0 = (Ok (Y, X), w1) /\
    nzv m n None = Ok (numverts, M) /\
    let found := shape0 Y in
    let log :=
      warnings_log world0 ++
      (if decide (Qc_of_Z (Z.of_nat found) <> numverts)
       then [VertexCountWarning numverts found] else []) in
    let w2 := World (generator w1) log in
    match ConvexHull_equations Y with
    | Raise e => BoundedActiveVariableDomain S world0 = (Raise e, w2)
    | Ok E =>
        match getcol E n with
        | Raise e => BoundedActiveVariableDomain S world0 = (Raise e, w2)
        | Ok b =>
            let c := Ineq (cols_before n E) b in
            BoundedActiveVariableDomain S world0 =
              (Ok (Domain S m n (Some Y) (Some X) (Some (Hull E)) (Some c)), w2) /\
            (forall x, con_fun c x =
               zip_with Qcminus (np_dot_mv (cols_before n E) x) (column n E)) /\
            (forall x, con_jac c x = cols_before n E)
        end
    end.
Proof.
  apply (bounded_domain_zonotope S_eye3 world0); simpl; lia.
Defined.

(** * Further properties of the code *)

(** ** Values of [nzv] *)

Lemma count_le_pow (m n : nat) :
  (1 <= m)%nat -> (count m n <= 2 ^ Z.of_nat m)%Z.
Proof.
  revert n. induction m as [|m IH]; intros n Hm; [lia |].
  rewrite Nat2Z.inj_succ, Z.pow_succ_r by lia.
  cbn [count]. case_decide.
  - assert (0 < 2 ^ Z.of_nat m)%Z by (apply Z.pow_pos_nonneg; lia). lia.
  - assert (1 <= m)%nat as Hm' by lia.
    pose proof (IH n Hm'). pose proof (IH (n - 1)%nat Hm'). lia.
Qed.

Lemma count_full (m n : nat) :
  (1 <= m <= n)%nat -> count m n = (2 ^ Z.of_nat m)%Z.
Proof.
  revert n. induction m as [|m IH]; intros n Hmn; [lia |].
  rewrite Nat2Z.inj_succ, Z.pow_succ_r by lia.
  cbn [count]. destruct (decide (m = 0 \/ n = 1)%nat) as [[-> | ->]|Hne].
  - reflexivity.
  - assert (m = 0%nat) as -> by lia. reflexivity.
  - rewrite !IH by lia. lia.
Qed.

Lemma count_polygon (m : nat) : (1 <= m)%nat -> count m 2 = (2 * Z.of_nat m)%Z.
Proof.
  induction m as [|m IH]; intros Hm; [lia |].
  cbn [count]. destruct (decide (m = 0 \/ 2 = 1)%nat) as [[-> | ?]|Hne];
    [reflexivity | lia |].
  rewrite IH by lia.
  replace (2 - 1)%nat with 1%nat by lia.
  rewrite (count_base m 1) by lia. lia.
Qed.

(** The count [nzv] returns lies between 2 and the number [2^m] of sign
    patterns, and equals [2^m] as soon as [n >= m]. *)
Theorem nzv_bounds (m n : nat) :
  (1 <= m)%nat -> (1 <= n)%nat ->
  exists (z : Z) (M : array2),
    nzv m n None = Ok (Qc_of_Z z, M) /\
    (2 <= z <= 2 ^ Z.of_nat m)%Z /\
    ((m <= n)%nat -> z = (2 ^ Z.of_nat m)%Z).
Proof.
  intros Hm Hn. destruct (nzv_fresh m n Hm Hn) as [M HM].
  exists (count m n), M. split; [done |]. split.
  - split; [apply count_ge_2 | by apply count_le_pow].
  - intros Hmn. apply count_full. lia.
Qed.

Lemma nzv_bounds_witness :
  exists (z : Z) (M : array2),
    nzv 3 4 None = Ok (Qc_of_Z z, M) /\
    (2 <= z <= 2 ^ Z.of_nat 3)%Z /\
    ((3 <= 4)%nat -> z = (2 ^ Z.of_nat 3)%Z).
Proof. apply (nzv_bounds 3 4); lia. Defined.

(** In the plane the zonotope of [m] generators is a polygon with [2 m]
    vertices: [nzv(m, 2) = 2 m]. *)
Theorem nzv_polygon (m : nat) :
  (1 <= m)%nat ->
  exists M : array2, nzv m 2 None = Ok (Qc_of_Z (2 * Z.of_nat m), M).
Proof.
  intros Hm. destruct (nzv_fresh m 2) as [M HM]; [lia | lia |].
  exists M. by rewrite <- count_polygon.
Qed.

Lemma nzv_polygon_witness :
  exists M : array2, nzv 5 2 None = Ok (Qc_of_Z (2 * Z.of_nat 5), M).
Proof. apply (nzv_polygon 5). lia. Defined.

(** ** The table [nzv] leaves behind *)

(** A loop whose invariant moves with the index. *)
Lemma for_range_from_steps {A : Type} (P : nat -> A -> Prop)
    (body : nat -> A -> result A) :
  forall n i acc,
    P i acc ->
    (forall j a, (i <= j < i + n)%nat -> P j a ->
       exists a', body j a = Ok a' /\ P (S j) a') ->
    exists acc', for_range_from i n body acc = Ok acc' /\ P (i + n)%nat acc'.
Proof.
  induction n as [|n IH]; intros i acc Hacc Hbody; simpl.
  - exists acc. by rewrite Nat.add_0_r.
  - destruct (Hbody i acc) as (a' & -> & Ha'); [lia | done |].
    rewrite bind_Ok.
    destruct (IH (S i) a' Ha') as (acc' & Hrun & Hacc').
    { intros j a Hj. apply Hbody. lia. }
    exists acc'. split; [done |].
    by replace (i + S n)%nat with (S i + n)%nat by lia.
Qed.

(** A call [nzv(m, n)] with [m >= 2] on a fresh table fills, besides the cell
    of [(m, n)], the cells of [(m, 1) .. (m, n-1)]: the row of [m] is complete
    up to column [n], and every cell of the table is unset or correct. *)
Theorem nzv_fills_row (m n : nat) :
  (2 <= m)%nat -> (1 <= n)%nat ->
  exists (k : Qc) (M : array2),
    nzv m n None = Ok (k, M) /\
    shape0 M = m /\ shape1 M = n /\ wf2 M /\
    (forall i, (i < n)%nat ->
       getitem2 M (m - 1) i = Ok (Qc_of_Z (count m (S i)))) /\
    (forall i j v, getitem2 M i j = Ok v ->
       v = 0 \/ v = Qc_of_Z (count (S i) (S j))).
Proof.
  intros Hm Hn. unfold nzv. cbn [default from_option].
  assert (m + n = S (m + n - 1))%nat as -> by lia.
  set (fuel := (m + n - 1)%nat).
  set (M0 := np_zeros2 m n).
  pose proof (table_ok_zeros m n) as Hok0. fold M0 in Hok0.
  rewrite nzv_rec_unfold.
  destruct (decide (m = 1 \/ n = 1)%nat) as [[?| ->]|Hrec]; [lia | |].
  - (* one column: the base case *)
    rewrite <- Z2Qc_inj_2, <- (count_base m 1) by lia.
    destruct (table_set_count M0 m 1) as (M' & -> & HL & Hget);
      [done | simpl; lia | simpl; lia |].
    rewrite bind_Ok, Hget, bind_Ok.
    destruct HL as ([Hwf Hcells] & Hs0 & Hs1 & _).
    eexists _, M'. split; [reflexivity |].
    split; [done |]. split; [done |]. split; [done |]. split; [|done].
    intros i Hi. by replace i with (1 - 1)%nat by lia.
  - destruct (getitem2_in_range M0 (m - 1) (n - 1)) as [v Hv];
      [apply Hok0 | simpl; lia | simpl; lia |].
    rewrite Hv, bind_Ok. rewrite (getitem2_zeros _ _ _ _ _ Hv).
    rewrite decide_True by done.
    destruct (nzv_rec_spec fuel (m - 1) (n - 1) M0) as (M1 & -> & HL1 & _);
      [unfold fuel; lia | done | simpl; lia | simpl; lia |].
    rewrite bind_Ok.
    pose proof HL1 as (Hok1 & Ha1 & Hb1 & _). simpl in Ha1, Hb1.
    destruct (nzv_rec_spec fuel (m - 1) n M1) as (M2 & -> & HL2 & _);
      [unfold fuel; lia | done | lia | lia |].
    rewrite bind_Ok.
    pose proof HL2 as (Hok2 & Ha2 & Hb2 & _).
    rewrite <- Z2Qc_inj_add, <- count_step by lia.
    destruct (table_set_count M2 m n) as (M3 & -> & HL3 & Hget3);
      [done | lia | lia |].
    rewrite bind_Ok.
    pose proof HL3 as (Hok3 & Ha3 & Hb3 & _).
    destruct (for_range_from_steps
                (fun j M' =>
                   table_later M3 M' /\
                   forall i, (i < j)%nat ->
                     getitem2 M' (m - 1) i = Ok (Qc_of_Z (count m (S i))))
                (fun i M => '(_, M) ← nzv_rec fuel m (i + 1) M; Ok M)
                (n - 1) 0 M3) as (M4 & HM4 & HL4 & Hrow).
    { split; [by apply table_later_refl | intros i Hi; lia]. }
    { intros j a Hj [Ha Hfilled].
      pose proof Ha as (Hoka & Haa & Hba & _).
      destruct (nzv_rec_spec fuel m (j + 1) a) as (a' & -> & HLa & Hgeta);
        [unfold fuel; lia | done | lia | lia |].
      rewrite bind_Ok. eexists; split; [reflexivity |]. split.
      - by eapply table_later_trans.
      - intros i Hi. destruct (decide (i = j)) as [->|Hne].
        + replace (j + 1 - 1)%nat with j in Hgeta by lia.
          by replace (S j) with (j + 1)%nat by lia.
        + destruct HLa as (_ & _ & _ & Hkeep).
          apply Hkeep; [apply Hfilled; lia | apply count_nonzero]. }
    unfold for_range. rewrite HM4, bind_Ok.
    pose proof HL4 as (Hok4 & Ha4 & Hb4 & Hc4).
    rewrite (Hc4 _ _ _ Hget3) by apply count_nonzero.
    rewrite bind_Ok. eexists _, M4. split; [reflexivity |].
    split; [lia |]. split; [lia |]. split; [apply Hok4 |]. split; [|apply Hok4].
    intros i Hi. destruct (decide (i = n - 1)%nat) as [->|Hne].
    + replace (S (n - 1)) with n by lia.
      apply Hc4; [done | apply count_nonzero].
    + apply Hrow. lia.
Qed.

Lemma nzv_fills_row_witness :
  exists (k : Qc) (M : array2),
    nzv 4 3 None = Ok (k, M) /\
    shape0 M = 4%nat /\ shape1 M = 3%nat /\ wf2 M /\
    (forall i, (i < 3)%nat ->
       getitem2 M (4 - 1) i = Ok (Qc_of_Z (count 4 (S i)))) /\
    (forall i j v, getitem2 M i j = Ok v ->
       v = 0 \/ v = Qc_of_Z (count (S i) (S j))).
Proof. apply (nzv_fills_row 4 3); lia. Defined.

(** ** The interval is the range of the active variable *)

Ltac qc_nra :=
  repeat match goal with
  | H : @eq Qc _ _ |- _ => apply Qc_eq_Qeq in H
  end;
  try apply Qc_eq_Qeq;
  unfold Qcle, Qclt, Qcminus, Qcplus, Qcmult, Qcopp, Q2Qc in *; cbn [this] in *;
  rewrite ?Qred_correct in *; nra.

Lemma mul_within_abs (a t : Qc) :
  - 1 <= t -> t <= 1 -> - np_abs a <= a * t /\ a * t <= np_abs a.
Proof.
  intros Hlo Hhi. unfold np_abs.
  case_decide as Ha; [|apply Qcnot_lt_le in Ha]; split; qc_nra.
Qed.

Lemma dot_within_abs (w x : vec) :
  Forall (fun t => - 1 <= t /\ t <= 1) x ->
  - vsum (map np_abs w) <= dot w x /\ dot w x <= vsum (map np_abs w).
Proof.
  intros Hx. revert w.
  induction Hx as [|t x [Hlo Hhi] _ IH]; intros [|a w]; cbn [map vsum foldr];
    rewrite ?dot_nil_r; try (unfold dot; simpl; split; qc_lra).
  - pose proof (np_abs_nonneg a) as Ha.
    assert (0 <= vsum (map np_abs w)) as Hs.
    { apply vsum_nonneg, Forall_map, Forall_forall. intros; apply np_abs_nonneg. }
    fold (vsum (map np_abs w)). split; qc_lra.
  - rewrite dot_cons. fold (vsum (map np_abs w)).
    destruct (IH w) as [IH1 IH2].
    destruct (mul_within_abs a t Hlo Hhi) as [Ha1 Ha2].
    split; qc_lra.
Qed.

(** For [W1] of shape (m, 1), the endpoints bound the active variable on the
    whole hypercube: every [x] with entries in [-1, 1] has
    [yl <= W1ᵗ·x <= yu]. *)
Theorem interval_endpoints_range (W1 : array2) (x : vec) :
  wf2 W1 -> shape1 W1 = 1%nat ->
  length x = shape0 W1 ->
  Forall (fun t => - 1 <= t /\ t <= 1) x ->
  exists (yl yu p : Qc) (X : array2),
    interval_endpoints W1 = Ok (Arr2 2 1 [[yl]; [yu]], X) /\
    np_dot_mv (transpose W1) x = [p] /\
    yl <= p /\ p <= yu.
Proof.
  intros Hwf Hn Hlen Hx.
  rewrite (one_column W1 Hwf Hn).
  set (w := column 0 W1).
  destruct (interval_endpoints_col w) as (_ & _ & Hval).
  exists (- dot w (map np_sign w)), (dot w (map np_sign w)), (dot w x).
  eexists. split; [exact Hval |]. split.
  - by rewrite transpose_col_of.
  - rewrite dot_sign_abs. apply dot_within_abs, Hx.
Qed.

Lemma interval_endpoints_range_witness :
  exists (yl yu p : Qc) (X : array2),
    interval_endpoints W1_mixed = Ok (Arr2 2 1 [[yl]; [yu]], X) /\
    np_dot_mv (transpose W1_mixed) [Q2Qc (1 # 2); - 1] = [p] /\
    yl <= p /\ p <= yu.
Proof.
  apply (interval_endpoints_range W1_mixed [Q2Qc (1 # 2); - 1]).
  - apply wf2_col_of.
  - reflexivity.
  - reflexivity.
  - repeat constructor; compute_done.
Defined.

(** ** [interval_endpoints] on an array that is no column *)

(** With no column the index [[0]] is out of range; with two or more columns
    [y0] has several entries and the [if] has no truth value. *)
Theorem interval_endpoints_not_a_column (W1 : array2) :
  shape1 W1 <> 1%nat ->
  interval_endpoints W1 =
    Raise (if decide (shape1 W1 = 0%nat) then IndexError else ValueError).
Proof.
  intros Hn. unfold interval_endpoints.
  destruct (shape1 W1) as [|[|n]] eqn:Hs; [| done |].
  - unfold getrow, np_dot, transpose. cbn [rows shape1]. rewrite Hs. reflexivity.
  - unfold getrow, np_dot, transpose, map2. cbn [rows shape1]. rewrite Hs.
    reflexivity.
Qed.

Lemma interval_endpoints_not_a_column_witness :
  interval_endpoints (W1 S_eye3) =
    Raise (if decide (shape1 (W1 S_eye3) = 0%nat) then IndexError else ValueError).
Proof. apply (interval_endpoints_not_a_column (W1 S_eye3)). discriminate. Defined.

(** ** When [sample_z] fails, and where it starts *)

Section SampleZEdges.
Context `{External}.

Lemma vadd_zeros_r (s : vec) : vadd s (np_zeros (length s)) = s.
Proof.
  unfold vadd, np_zeros. induction s as [|t s IH]; simpl; [done |].
  rewrite IH. f_equal. ring.
Qed.

(** [sample_z] returns exactly when the seed is found and [N] is not
    negative.  A failure of the solver is passed on as it is, a negative [N]
    is refused by [np.zeros] with [ValueError]; in both cases no random
    number has been drawn. *)
Theorem sample_z_outcome (N : Z) (y : vec) (W1 W2 : array2) (w : world) :
  wf2 W1 -> wf2 W2 -> length y = shape1 W1 ->
  shape0 W2 = shape0 W1 -> (shape1 W1 <= shape0 W1)%nat ->
  shape1 W2 = (shape0 W1 - shape1 W1)%nat ->
  match seed y W1 W2 with
  | Raise e => sample_z N y W1 W2 w = (Raise e, w)
  | Ok z0 =>
      if decide (N < 0)%Z
      then sample_z N y W1 W2 w = (Raise ValueError, w)
      else exists (Z : array2) (w' : world),
             sample_z N y W1 W2 w = (Ok Z, w') /\
             shape0 Z = (shape0 W1 - shape1 W1)%nat /\
             shape1 Z = Z.to_nat N
  end.
Proof.
  intros _ _ _ _ _ Hshape. destruct (seed y W1 W2) as [z0|e] eqn:Hseed.
  - case_decide as HN.
    + unfold sample_z.
      erewrite py_bind_Ok; [| unfold lift; rewrite Hseed; reflexivity].
      replace (Z.to_nat (10 * N)) with 0%nat by lia.
      erewrite py_bind_Ok; [| reflexivity].
      erewrite py_bind_Raise; [reflexivity |].
      unfold lift, np_zeros2_int. by rewrite decide_True.
    + destruct (sample_z_run N y W1 W2 z0 w) as (Z & Hrun & _ & Hs0 & Hs1 & _);
        [lia | done | done |].
      eexists _, _. split; [exact Hrun |]. done.
  - unfold sample_z.
    erewrite py_bind_Raise; [reflexivity |].
    unfold lift. by rewrite Hseed.
Qed.

(** The solver is consulted only for a [y] whose image [W1·y] leaves the
    cube: when [-1 <= W1·y <= 1] in every component the seed is the origin,
    whatever the solver would answer, and otherwise it is [W2ᵗ·x0] for the
    solver's [x0]. *)
Theorem seed_cases (y : vec) (W1 W2 : array2) :
  wf2 W1 -> length y = shape1 W1 -> (shape1 W1 <= shape0 W1)%nat ->
  let m := shape0 W1 in
  let s := np_dot_mv W1 y in
  (Forall (fun t => - 1 <= t /\ t <= 1) s ->
   seed y W1 W2 = Ok (np_zeros (m - shape1 W1))) /\
  (~ Forall (fun t => - 1 <= t /\ t <= 1) s ->
   seed y W1 W2 =
     (x0 ← linear_program_eq (np_zeros m) (transpose W1) y
             (vneg (np_ones m)) (np_ones m);
      Ok (np_dot_mv (transpose W2) x0))).
Proof.
  intros [Hlen _] _ _ m s.
  assert (origin_inside m s = true <-> Forall (fun t => - 1 <= t /\ t <= 1) s)
    as Htest.
  { unfold origin_inside. rewrite inside_bounds.
    assert (length s = m) as <-.
    { unfold s. by rewrite length_np_dot_mv. }
    by rewrite vadd_zeros_r. }
  split; intros Hs; unfold seed; fold m s.
  - apply Htest in Hs. by rewrite Hs.
  - destruct (origin_inside m s) eqn:Ho; [|done].
    exfalso. by apply Hs, Htest.
Qed.

(** ** A walk that cannot move *)

Lemma vadd_vscale_zero (z e : vec) :
  length e = length z -> vadd z (vscale 0 e) = z.
Proof.
  unfold vadd, vscale. revert e.
  induction z as [|a z IH]; intros [|b e] Hlen; simpl in *; try done.
  rewrite IH by lia. f_equal. ring.
Qed.

Lemma walk_step_zero W1 W2 y z g :
  (walk_step 0 W1 W2 y (z, g)).1 = z.
Proof.
  unfold walk_step.
  pose proof (np_random_normal_length (length z) g) as He.
  destruct (np_random_normal (length z) g) as [e g']; simpl in *.
  case_decide; [|done]. by apply vadd_vscale_zero.
Qed.

Lemma chain_zero W1 W2 y k z g : (chain 0 W1 W2 y k (z, g)).1 = z.
Proof.
  induction k as [|k IH]; [done |].
  unfold chain in *. simpl.
  destruct (Nat.iter k (walk_step 0 W1 W2 y) (z, g)) as [z' g'] eqn:Hk.
  simpl in IH. subst z'. apply walk_step_zero.
Qed.

(** When the step size is zero (the seed's image touches the boundary so
    that one of the two norms vanishes) every candidate is the current point,
    and all [N] draws returned are the seed itself. *)
Theorem sample_z_stalls (N : Z) (y : vec) (W1 W2 : array2) (z0 : vec)
    (w : world) :
  (0 <= N)%Z ->
  wf2 W1 -> wf2 W2 -> length y = shape1 W1 ->
  shape0 W2 = shape0 W1 -> (shape1 W1 <= shape0 W1)%nat ->
  shape1 W2 = (shape0 W1 - shape1 W1)%nat ->
  seed y W1 W2 = Ok z0 ->
  step_size W2 (np_dot_mv W1 y) z0 = 0 ->
  exists (Z : array2) (w' : world),
    sample_z N y W1 W2 w = (Ok Z, w') /\
    shape1 Z = Z.to_nat N /\
    forall i, (i < Z.to_nat N)%nat -> column i Z = z0.
Proof.
  intros HN _ _ _ _ _ Hshape Hseed Hsig.
  destruct (sample_z_run N y W1 W2 z0 w HN Hshape Hseed)
    as (Z & Hrun & _ & _ & Hs1 & Hcols).
  eexists Z, _. split; [exact Hrun |]. split; [done |].
  intros i Hi. rewrite (Hcols i Hi), Hsig. apply chain_zero.
Qed.

End SampleZEdges.

Lemma sample_z_outcome_witness :
  match seed [Q2Qc (1 # 2)] (W1 S_plane) (W2 S_plane) with
  | Raise e =>
      sample_z (-1) [Q2Qc (1 # 2)] (W1 S_plane) (W2 S_plane) world0 = (Raise e, world0)
  | Ok z0 =>
      if decide (-1 < 0)%Z
      then sample_z (-1) [Q2Qc (1 # 2)] (W1 S_plane) (W2 S_plane) world0
           = (Raise ValueError, world0)
      else exists (Z : array2) (w' : world),
             sample_z (-1) [Q2Qc (1 # 2)] (W1 S_plane) (W2 S_plane) world0
             = (Ok Z, w') /\
             shape0 Z = (shape0 (W1 S_plane) - shape1 (W1 S_plane))%nat /\
             shape1 Z = Z.to_nat (-1)
  end.
Proof.
  apply (sample_z_outcome (-1) [Q2Qc (1 # 2)] (W1 S_plane) (W2 S_plane) world0).
  - apply wf2_col_of.
  - apply wf2_col_of.
  - reflexivity.
  - reflexivity.
  - simpl. lia.
  - reflexivity.
Defined.

Lemma seed_cases_witness :
  let y := [Q2Qc (1 # 2)] in
  let m := shape0 (W1 S_plane) in
  let s := np_dot_mv (W1 S_plane) y in
  (Forall (fun t => - 1 <= t /\ t <= 1) s ->
   seed y (W1 S_plane) (W2 S_plane) = Ok (np_zeros (m - shape1 (W1 S_plane)))) /\
  (~ Forall (fun t => - 1 <= t /\ t <= 1) s ->
   seed y (W1 S_plane) (W2 S_plane) =
     (x0 ← linear_program_eq (np_zeros m) (transpose (W1 S_plane)) y
             (vneg (np_ones m)) (np_ones m);
      Ok (np_dot_mv (transpose (W2 S_plane)) x0))).
Proof.
  apply (seed_cases [Q2Qc (1 # 2)] (W1 S_plane) (W2 S_plane)).
  - apply wf2_col_of.
  - reflexivity.
  - simpl. lia.
Defined.

Lemma sample_z_stalls_witness :
  exists (Z : array2) (w' : world),
    sample_z 3 [1] (col_of [1; 1]) (col_of [1; - 1]) world0 = (Ok Z, w') /\
    shape1 Z = Z.to_nat 3 /\
    forall i, (i < Z.to_nat 3)%nat -> column i Z = np_zeros 1.
Proof.
  apply (sample_z_stalls 3 [1] (col_of [1; 1]) (col_of [1; - 1]) (np_zeros 1) world0).
  - lia.
  - apply wf2_col_of.
  - apply wf2_col_of.
  - reflexivity.
  - reflexivity.
  - simpl. lia.
  - reflexivity.
  - reflexivity.
  - compute_done.
Defined.

(** ** What [zonotope_vertices] collects *)

Lemma dot_comm (u v : vec) : dot u v = dot v u.
Proof.
  unfold dot. revert v.
  induction u as [|a u IH]; intros [|b v]; simpl; try done.
  rewrite IH. ring.
Qed.

Lemma np_eq_all (x xx : vec) :
  length x = length xx -> (np_all (np_eq x xx) = true <-> x = xx).
Proof.
  unfold np_all, np_eq. revert xx.
  induction x as [|a x IH]; intros [|b xx] Hlen; simpl in *; try done.
  rewrite andb_true_iff, bool_decide_eq_true, IH by lia.
  split; [intros [-> ->]; done | intros [= -> ->]; done].
Qed.

Lemma seen_elem_of (m : nat) (x : vec) (Xlist : list vec) :
  length x = m -> Forall (fun xx => length xx = m) Xlist ->
  (seen x Xlist = true <-> x ∈ Xlist).
Proof.
  intros Hx Hall. unfold seen.
  induction Hall as [|xx Xlist Hxx _ IH]; simpl.
  - split; [done | by intros ?%elem_of_nil].
  - rewrite orb_true_iff, IH, np_eq_all by lia.
    rewrite elem_of_cons. done.
Qed.

Section VerticesCollected.
Context `{External}.

Lemma length_sign_of (W1 : array2) (yv : vec) : length (sign_of W1 yv) = shape0 W1.
Proof. unfold sign_of, np_dot_vm. simpl. by rewrite !length_map, length_seq. Qed.

(** The loop of [zonotope_vertices], run from any list of distinct sign
    vectors: it adds the sign vectors of the directions drawn that are not
    there yet, each once. *)
Lemma vertices_loop (W1 : array2) :
  forall (NY i : nat) (Xl : list vec) (w : world),
    NoDup Xl -> Forall (fun x => length x = shape0 W1) Xl ->
    exists (Xl' : list vec) (w' : world),
      py_for_from i NY
        (fun _ '(Xlist, nzv) =>
           y ← normal (shape1 W1);
           let x := map np_sign (np_dot_vm y (transpose W1)) in
           let addx := negb (seen x Xlist) in
           mret (if addx then (Xlist ++ [x], S nzv) else (Xlist, nzv)))
        (Xl, length Xl) w = (Ok (Xl', length Xl'), w') /\
      generator w' = (directions (shape1 W1) NY (generator w)).2 /\
      warnings_log w' = warnings_log w /\
      NoDup Xl' /\ Forall (fun x => length x = shape0 W1) Xl' /\
      (length Xl' <= length Xl + NY)%nat /\
      (forall x, x ∈ Xl' <->
         x ∈ Xl \/ exists yv, yv ∈ (directions (shape1 W1) NY (generator w)).1 /\
                              x = sign_of W1 yv).
Proof.
  induction NY as [|NY IH]; intros i Xl w Hnd Hlen.
  - exists Xl, w. cbn [py_for_from directions]. rewrite py_ret_run.
    repeat split; try done; try lia.
    + by left.
    + intros [?|(yv & Hyv & _)]; [done | by apply elem_of_nil in Hyv].
  - cbn [py_for_from directions].
    destruct (np_random_normal (shape1 W1) (generator w)) as [yv g1] eqn:Hdraw.
    set (x := sign_of W1 yv).
    set (acc1 := if negb (seen x Xl) then (Xl ++ [x], S (length Xl))
                 else (Xl, length Xl)).
    assert (acc1.2 = length acc1.1 /\ NoDup acc1.1 /\
            Forall (fun x => length x = shape0 W1) acc1.1 /\
            (length acc1.1 <= S (length Xl))%nat /\
            (forall x', x' ∈ acc1.1 <-> x' ∈ Xl \/ x' = x)) as (Hk & Hnd1 & Hlen1 & Hle1 & Hin1).
    { unfold acc1. destruct (seen x Xl) eqn:Hseen; simpl.
      - apply (seen_elem_of (shape0 W1)) in Hseen;
          [| apply length_sign_of | done].
        repeat split; try done; try lia.
        + by left.
        + intros [?| ->]; done.
      - assert (x ∉ Xl) as Hnotin.
        { intros Hin. apply (seen_elem_of (shape0 W1)) in Hin;
            [congruence | apply length_sign_of | done]. }
        rewrite length_app. simpl. split; [lia |]. split.
        { apply list.NoDup_app. split; [done |]. split.
          - intros x' Hx' ->%list_elem_of_singleton. done.
          - apply list.NoDup_singleton. }
        split.
        { apply Forall_app. split; [done |].
          constructor; [apply length_sign_of | constructor]. }
        split; [lia |].
        intros x'. rewrite elem_of_app, list_elem_of_singleton. done. }
    destruct acc1 as [Xl1 k1] eqn:Hacc1. simpl in Hk, Hnd1, Hlen1, Hle1, Hin1.
    subst k1.
    destruct (IH (S i) Xl1 (World g1 (warnings_log w)) Hnd1 Hlen1)
      as (Xl' & w' & Hrun & Hgen & Hlog & Hnd' & Hlen' & Hle' & Hin').
    cbn [generator warnings_log] in Hgen, Hlog, Hin'.
    destruct (directions (shape1 W1) NY g1) as [ys g2] eqn:Hys.
    exists Xl', w'. split.
    { rewrite <- Hrun. apply py_bind_Ok. cbn beta iota.
      erewrite py_bind_Ok; [| apply normal_run].
      rewrite Hdraw. cbn [fst snd]. rewrite py_ret_run.
      fold (sign_of W1 yv). fold x. unfold acc1 in Hacc1. by rewrite Hacc1. }
    cbn [fst snd] in *.
    split; [done |]. split; [done |]. split; [done |]. split; [done |].
    split; [lia |].
    intros x'. rewrite Hin', Hin1. split.
    + intros [[?| ->]|(yv' & Hyv' & ->)].
      * by left.
      * right. exists yv. split; [apply list_elem_of_here | done].
      * right. exists yv'. split; [by apply list_elem_of_further | done].
    + intros [?|(yv' & Hyv' & ->)]; [by left; left |].
      apply elem_of_cons in Hyv' as [-> | Hyv'].
      * left; right. done.
      * right. by exists yv'.
Qed.

(** The result of [zonotope_vertices], from the result of its loop. *)
Lemma zonotope_vertices_result (W1 : array2) (NY : nat) (w : world) :
  let m := shape0 W1 in
  let n := shape1 W1 in
  let drawn := directions n NY (generator w) in
  exists (Y X : array2) (w' : world),
    zonotope_vertices W1 NY w = (Ok (Y, X), w') /\
    generator w' = drawn.2 /\ warnings_log w' = warnings_log w /\
    wf2 X /\ shape1 X = m /\ (shape0 X <= NY)%nat /\
    wf2 Y /\ shape1 Y = n /\ shape0 Y = shape0 X /\
    NoDup (rows X) /\
    (forall x, x ∈ rows X <-> exists yv, yv ∈ drawn.1 /\ x = sign_of W1 yv) /\
    rows Y = map (fun x => np_dot_vm x W1) (rows X).
Proof.
  intros m n drawn.
  destruct (vertices_loop W1 NY 0 [] w) as
    (Xl & w' & Hrun & Hgen & Hlog & Hnd & Hlen & Hle & Hin);
    [constructor | constructor |].
  simpl in Hle.
  assert (reshape2 (length Xl) m (concat Xl) = Arr2 (length Xl) m Xl) as HX.
  { unfold reshape2. f_equal. by apply chunks_concat. }
  set (X := Arr2 (length Xl) m Xl).
  assert (reshape2 (length Xl) n (ravel (np_dot X W1))
          = Arr2 (length Xl) n (map (fun x => np_dot_vm x W1) Xl)) as HY.
  { unfold reshape2, ravel, np_dot. cbn [rows X]. f_equal.
    apply chunks_concat_length; [by rewrite length_map |].
    apply Forall_map, Forall_forall. intros x _.
    unfold np_dot_vm. by rewrite length_map, length_seq. }
  exists (Arr2 (length Xl) n (map (fun x => np_dot_vm x W1) Xl)), X, w'.
  split.
  { unfold zonotope_vertices, py_for. fold m n.
    erewrite py_bind_Ok; [| exact Hrun].
    cbn beta iota. rewrite py_ret_run. fold m. rewrite HX. fold X.
    by rewrite HY. }
  split; [done |]. split; [done |].
  split; [by split |]. split; [done |]. split; [done |].
  split.
  { split; cbn [rows shape0 shape1]; [by rewrite length_map |].
    apply Forall_map, Forall_forall. intros x _.
    unfold np_dot_vm. by rewrite length_map, length_seq. }
  split; [done |]. split; [done |]. split; [done |]. split; [|done].
  intros x. cbn [rows X]. rewrite Hin. split.
  - intros [Hnil|?]; [by apply elem_of_nil in Hnil | done].
  - by right.
Qed.

(** [zonotope_vertices] always returns.  It draws [NY] directions of [n]
    numbers each; the rows of [X] are the sign vectors of these directions,
    each listed once, so there are at most [NY] of them; row [i] of [Y] is
    [xᵗ·W1] for row [i] of [X]; no warning is emitted. *)
Theorem zonotope_vertices_collects (W1 : array2) (NY : nat) (w : world) :
  let drawn := directions (shape1 W1) NY (generator w) in
  exists (Y X : array2) (w' : world),
    zonotope_vertices W1 NY w = (Ok (Y, X), w') /\
    generator w' = drawn.2 /\ warnings_log w' = warnings_log w /\
    wf2 X /\ shape1 X = shape0 W1 /\ (shape0 X <= NY)%nat /\
    wf2 Y /\ shape1 Y = shape1 W1 /\ shape0 Y = shape0 X /\
    NoDup (rows X) /\
    (forall x, x ∈ rows X <-> exists yv, yv ∈ drawn.1 /\ x = sign_of W1 yv) /\
    (forall i x, rows X !! i = Some x -> rows Y !! i = Some (np_dot_vm x W1)).
Proof.
  intros drawn.
  destruct (zonotope_vertices_result W1 NY w)
    as (Y & X & w' & Hrun & Hgen & Hlog & HwfX & HX1 & HX0 & HwfY & HY1 & HY0
        & Hnd & Hin & HY).
  exists Y, X, w'.
  do 10 (split; [done |]). split; [exact Hin |].
  intros i x Hx. by rewrite HY, list_lookup_fmap, Hx.
Qed.

(** ** A vertex is extremal in its direction *)

(** [(x'ᵗ·W1)·yv = x'·(W1·yv)]. *)
Lemma dot_vm_exchange (W1 : array2) (x' yv : vec) :
  length x' = shape0 W1 ->
  dot (np_dot_vm x' W1) yv = dot x' (np_dot_vm yv (transpose W1)).
Proof.
  intros Hlen. unfold np_dot_vm.
  rewrite <- (map_map (fun j => column j W1) (dot x')).
  rewrite dot_matvec, Hlen. cbn [transpose shape1].
  f_equal. apply map_ext. intros b.
  rewrite dot_comm. f_equal.
Qed.

(** For the direction [yv] of a vertex, no point [x'ᵗ·W1] with [x'] in the
    cube lies farther along [yv] than the vertex [xᵗ·W1] recorded for it:
    every row of [Y] maximises over the zonotope the direction it was
    found with. *)
Theorem zonotope_vertices_extremal (W1 : array2) (NY : nat) (w : world) :
  exists (Y X : array2) (w' : world),
    zonotope_vertices W1 NY w = (Ok (Y, X), w') /\
    forall (i : nat) (x : vec),
      rows X !! i = Some x ->
      exists yv : vec,
        yv ∈ (directions (shape1 W1) NY (generator w)).1 /\
        x = sign_of W1 yv /\
        rows Y !! i = Some (np_dot_vm x W1) /\
        forall x' : vec,
          length x' = shape0 W1 ->
          Forall (fun t => - 1 <= t /\ t <= 1) x' ->
          dot (np_dot_vm x' W1) yv <= dot (np_dot_vm x W1) yv.
Proof.
  destruct (zonotope_vertices_result W1 NY w)
    as (Y & X & w' & Hrun & _ & _ & _ & _ & _ & _ & _ & _ & _ & Hin & HY).
  exists Y, X, w'. split; [done |].
  intros i x Hx.
  destruct (proj1 (Hin x)) as (yv & Hyv & ->).
  { by eapply list_elem_of_lookup_2. }
  exists yv. split; [done |]. split; [done |]. split.
  { rewrite HY, list_lookup_fmap, Hx. reflexivity. }
  intros x' Hlen Hcube.
  rewrite !dot_vm_exchange by (done || apply length_sign_of).
  unfold sign_of.
  set (p := np_dot_vm yv (transpose W1)).
  rewrite (dot_comm (map np_sign p) p), dot_sign_abs, (dot_comm x' p).
  by apply dot_within_abs.
Qed.

End VerticesCollected.

(** ** The interval case of the bounded domain *)

Section DomainInterval.
Context `{External}.

(** For [n = 1] the constructor takes the two endpoints from
    [interval_endpoints] and builds neither hull nor constraints; it draws
    no random number, emits no warning and does not fail. *)
Theorem bounded_domain_interval (S : subspaces) (w : world) :
  wf2 (W1 S) -> shape1 (W1 S) = 1%nat ->
  exists Y X : array2,
    interval_endpoints (W1 S) = Ok (Y, X) /\
    shape0 Y = 2%nat /\ shape1 Y = 1%nat /\
    shape0 X = 2%nat /\ shape1 X = shape0 (W1 S) /\
    BoundedActiveVariableDomain S w =
      (Ok (Domain S (shape0 (W1 S)) 1 (Some Y) (Some X) None None), w).
Proof.
  intros Hwf Hn.
  pose proof (shape0_one_column (W1 S) Hwf) as Hm.
  destruct (interval_endpoints_col (column 0 (W1 S))) as (_ & _ & Hval).
  rewrite <- (one_column (W1 S) Hwf Hn), Hm in Hval.
  eexists _, _. split; [exact Hval |].
  do 4 (split; [done |]).
  unfold BoundedActiveVariableDomain. rewrite Hn.
  rewrite decide_True by done.
  rewrite py_bind_assoc.
  erewrite py_bind_Ok; [| unfold lift; rewrite Hval; reflexivity].
  reflexivity.
Qed.

End DomainInterval.

Lemma bounded_domain_interval_witness :
  exists Y X : array2,
    interval_endpoints (W1 S_plane) = Ok (Y, X) /\
    shape0 Y = 2%nat /\ shape1 Y = 1%nat /\
    shape0 X = 2%nat /\ shape1 X = shape0 (W1 S_plane) /\
    BoundedActiveVariableDomain S_plane world0 =
      (Ok (Domain S_plane (shape0 (W1 S_plane)) 1 (Some Y) (Some X) None None),
       world0).
Proof.
  apply (bounded_domain_interval S_plane world0); [apply wf2_col_of | reflexivity].
Defined.

(** ** Failures of [inverse] *)

Section InverseFailures.
Context `{External}.

Lemma sample_z_negative (N : Z) (y : vec) (W1 W2 : array2) (z0 : vec) (w : world) :
  (N < 0)%Z -> seed y W1 W2 = Ok z0 ->
  sample_z N y W1 W2 w = (Raise ValueError, w).
Proof.
  intros HN Hseed. unfold sample_z.
  erewrite py_bind_Ok; [| unfold lift; rewrite Hseed; reflexivity].
  replace (Z.to_nat (10 * N)) with 0%nat by lia.
  erewrite py_bind_Ok; [| reflexivity].
  erewrite py_bind_Raise; [reflexivity |].
  unfold lift, np_zeros2_int. by rewrite decide_True.
Qed.

(** What [inverse] raises, in the order the code reaches it: an error of
    [process_inputs] comes first, whatever [N] is; then [TypeError] for an
    [N] (the default is 1) that is no [int]; and with an [int] the base
    class [ActiveVariableMap] raises [NotImplementedError].  None of these
    draws a random number. *)
Theorem inverse_raises (cls : map_class) (D : domain) (Y : array2)
    (N : option pyobj) (w : world) :
  match process_inputs Y with
  | Raise e => inverse cls D Y N w = (Raise e, w)
  | Ok _ =>
      match default (PyInt 1) N with
      | PyInt _ =>
          cls = ActiveVariableMap ->
          inverse cls D Y N w = (Raise NotImplementedError, w)
      | _ => inverse cls D Y N w = (Raise TypeError, w)
      end
  end.
Proof.
  unfold inverse.
  destruct (process_inputs Y) as [[[Y' a] b]|e] eqn:Hin.
  - destruct (default (PyInt 1) N) eqn:HN;
      try (erewrite py_bind_Ok; [| reflexivity]; reflexivity).
    intros ->.
    erewrite py_bind_Ok; [| reflexivity]. reflexivity.
  - erewrite py_bind_Raise; reflexivity.
Qed.

(** A negative [int] passes the check of [inverse] and is refused further
    down with [ValueError]: by [np.random.normal] in the unbounded map, by
    [np.zeros] in [sample_z] (or by the final [reshape] when [Y] has no row)
    in the bounded map whose rows have seeds.  No random number is drawn. *)
Theorem inverse_negative (cls : map_class) (D : domain) (Y Y' : array2)
    (a b : nat) (N : Z) (w : world) :
  let S := dom_subspaces D in
  process_inputs Y = Ok (Y', a, b) ->
  (N < 0)%Z ->
  cls = UnboundedActiveVariableMap \/
  (cls = BoundedActiveVariableMap /\
   Forall (fun y => exists z0, seed y (W1 S) (W2 S) = Ok z0) (rows Y')) ->
  inverse cls D Y (Some (PyInt N)) w = (Raise ValueError, w).
Proof.
  intros S Hin HN Hcls. unfold inverse. cbn [default from_option].
  erewrite py_bind_Ok; [| unfold lift; rewrite Hin; reflexivity].
  cbn beta iota delta [id].
  erewrite py_bind_Raise; [reflexivity |].
  destruct Hcls as [-> | [-> Hseeds]]; unfold regularize_z; fold S.
  - by rewrite decide_True.
  - destruct Hseeds as [|y ys [z0 Hz0] _].
    + simpl. erewrite py_bind_Ok; [| reflexivity]. by rewrite decide_True.
    + cbn [py_map].
      erewrite py_bind_Raise; [reflexivity |].
      erewrite py_bind_Raise; [reflexivity |].
      by eapply sample_z_negative.
Qed.

End InverseFailures.

Lemma inverse_negative_witness :
  inverse BoundedActiveVariableMap (UnboundedActiveVariableDomain S_plane)
    Y_two (Some (PyInt (-3))) world0 = (Raise ValueError, world0).
Proof.
  apply (inverse_negative BoundedActiveVariableMap
           (UnboundedActiveVariableDomain S_plane) Y_two Y_two 2 1 (-3) world0).
  - reflexivity.
  - lia.
  - right. split; [reflexivity |].
    repeat constructor; eexists; reflexivity.
Defined.

(** ** The points [rotate_x] returns *)

Lemma rotate_x_row_at (Y : array2) (Z : array3) (W : array2) (i : nat) :
  wf2 Y -> wf3 Z -> dim0 Z = shape0 Y ->
  wf2 W -> shape0 W = (shape1 Y + dim1 Z)%nat ->
  (i < dim2 Z * shape0 Y)%nat ->
  rows (rotate_x Y Z W).1 !! i
  = Some (map (dot (nth (i / dim2 Z) (rows Y) [] ++ draw Z (i / dim2 Z) (i mod dim2 Z)))
            (rows W)).
Proof.
  intros HY HZ Hdim HW HmW Hi.
  assert (dim2 Z <> 0)%nat as HN by lia.
  pose proof (Nat.div_mod_eq i (dim2 Z)) as Hdm.
  pose proof (Nat.mod_upper_bound i (dim2 Z) HN) as Hk.
  assert (i / dim2 Z < shape0 Y)%nat as Hr.
  { apply Nat.Div0.div_lt_upper_bound. lia. }
  rewrite Hdm at 1.
  rewrite (Nat.mul_comm (dim2 Z) (i / dim2 Z)).
  by apply rotate_x_point.
Qed.

Lemma map_dot_comm (v : vec) (rs : list vec) :
  map (dot v) rs = map (fun a => dot a v) rs.
Proof. apply map_ext. intros a. apply dot_comm. Qed.



(** ** The arrays [regularize_z] returns *)

Lemma chunks_lengths (r c : nat) (l : vec) :
  length l = (r * c)%nat -> Forall (fun x => length x = c) (chunks r c l).
Proof.
  revert l. induction r as [|r IH]; intros l Hl; simpl; constructor.
  - rewrite length_take. lia.
  - apply IH. rewrite length_drop. lia.
Qed.

Lemma wf3_reshape3 (a b c : nat) (l : vec) :
  length l = (a * b * c)%nat -> wf3 (reshape3 a b c l).
Proof.
  intros Hl. split; cbn [planes dim0 dim1 dim2 reshape3].
  - by rewrite length_map, length_chunks.
  - apply Forall_map.
    eapply List.Forall_impl; [| apply (chunks_lengths a (b * c)); lia].
    intros p Hp. cbv beta. split; [apply length_chunks |].
    by apply chunks_lengths.
Qed.

Lemma wf2_hstack (A B : array2) :
  wf2 A -> wf2 B -> shape0 A = shape0 B -> wf2 (np_hstack A B).
Proof.
  intros [HlenA HrowsA] [HlenB HrowsB] Hsh. split; cbn [np_hstack rows shape0 shape1].
  - rewrite length_zip_with. lia.
  - assert (length (rows A) = length (rows B)) as Hlen by lia.
    clear HlenA HlenB Hsh. revert HrowsB Hlen. generalize (rows B) as bs.
    induction HrowsA as [|r rs Hr _ IH]; intros [|b bs] Hbs Hlen; simpl in *;
      try constructor.
    + apply Forall_cons_iff in Hbs as [Hb _]. rewrite length_app. lia.
    + apply IH; [by apply Forall_cons_iff in Hbs as [_ ?] | lia].
Qed.

Section RegularizeZ.
Context `{External}.

Lemma py_map_rel {A B : Type} (f : A -> py B) (Q : A -> B -> Prop)
    (P : world -> Prop) :
  forall xs w,
    P w ->
    (forall x w, x ∈ xs -> P w -> exists b w', f x w = (Ok b, w') /\ Q x b /\ P w') ->
    exists bs w', py_map f xs w = (Ok bs, w') /\ Forall2 Q xs bs /\ P w'.
Proof.
  induction xs as [|x xs IH]; intros w Hw Hf; simpl.
  - exists [], w. rewrite py_ret_run. split; [done |]. split; [constructor | done].
  - destruct (Hf x w) as (b & w1 & Hrun & Hb & Hw1);
      [apply list_elem_of_here | done |].
    destruct (IH w1) as (bs & w2 & Hrest & Hall & Hw2); [done | |].
    { intros x' w' Hin. apply Hf. by apply list_elem_of_further. }
    exists (b :: bs), w2.
    rewrite (py_bind_Ok _ _ _ _ _ Hrun), (py_bind_Ok _ _ _ _ _ Hrest).
    rewrite py_ret_run. split; [done |]. split; [by constructor | done].
Qed.

(** The bounded map stacks the arrays [sample_z] returns, one per row. *)
Lemma regularize_z_bounded (D : domain) (Y : array2) (N : Z) (w : world) :
  let S := dom_subspaces D in
  (0 <= N)%Z ->
  shape1 (W2 S) = (shape0 (W1 S) - shape1 (W1 S))%nat ->
  Forall (fun y => exists z0, seed y (W1 S) (W2 S) = Ok z0) (rows Y) ->
  exists (Zlist : list array2) (w' : world),
    regularize_z BoundedActiveVariableMap D Y N w =
      (Ok (Arr3 (shape0 Y) (shape0 (W1 S) - shape1 (W1 S)) (Z.to_nat N)
             (map rows Zlist)), w') /\
    Forall2 (sampled (Z.to_nat N) S) (rows Y) Zlist.
Proof.
  intros S HN Hshape Hseeds.
  destruct (py_map_rel (fun y => sample_z N y (W1 S) (W2 S))
              (sampled (Z.to_nat N) S) (fun _ => True) (rows Y) w)
    as (Zlist & w' & Hrun & Hall & _); [done | |].
  { intros y w1 Hy _.
    rewrite Forall_forall in Hseeds.
    destruct (Hseeds y) as [z0 Hz0]; [by apply list_elem_of_In |].
    destruct (sample_z_run N y (W1 S) (W2 S) z0 w1 HN Hshape Hz0)
      as (Zy & HZy & Hwf & Hs0 & Hs1 & Hcols).
    exists Zy. eexists. split; [exact HZy |]. split; [|done].
    split; [done |]. split; [done |]. split; [done |].
    exists z0. split; [done |]. intros i Hi. eauto. }
  exists Zlist, w'. split; [|done].
  unfold regularize_z. fold S.
  rewrite (py_bind_Ok _ _ _ _ _ Hrun).
  rewrite decide_False by lia. by rewrite py_ret_run.
Qed.

Lemma wf3_stacked (N : nat) (S : subspaces) (Y : array2) (Zlist : list array2) :
  wf2 Y -> Forall2 (sampled N S) (rows Y) Zlist ->
  wf3 (Arr3 (shape0 Y) (shape0 (W1 S) - shape1 (W1 S)) N (map rows Zlist)).
Proof.
  intros [HlenY _] Hall. split; cbn [planes dim0 dim1 dim2].
  - rewrite length_map, <- HlenY. symmetry. by eapply Forall2_length.
  - apply Forall_map. clear HlenY.
    induction Hall as [|y Zy ys Zs (Hwf & Hs0 & Hs1 & _) _ IH]; constructor;
      [|done].
    cbv beta. destruct Hwf as [Hl Hr]. split; [lia |]. by rewrite <- Hs1.
Qed.

(** [regularize_z] of the two concrete maps returns a well-formed array of
    the announced shape (NY, m-n, N): always for the unbounded map, and for
    the bounded map when every row has a seed. *)
Lemma regularize_z_wf (cls : map_class) (D : domain) (Y : array2) (N : Z)
    (w : world) :
  let S := dom_subspaces D in
  wf2 Y -> (0 <= N)%Z ->
  shape1 (W2 S) = (shape0 (W1 S) - shape1 (W1 S))%nat ->
  cls = UnboundedActiveVariableMap \/
  (cls = BoundedActiveVariableMap /\
   Forall (fun y => exists z0, seed y (W1 S) (W2 S) = Ok z0) (rows Y)) ->
  exists (Zs : array3) (w' : world),
    regularize_z cls D Y N w = (Ok Zs, w') /\
    wf3 Zs /\ dim0 Zs = shape0 Y /\
    dim1 Zs = (shape0 (W1 S) - shape1 (W1 S))%nat /\
    dim2 Zs = Z.to_nat N.
Proof.
  intros S HY HN Hshape [-> | [-> Hseeds]].
  - unfold regularize_z. fold S. rewrite decide_False by lia.
    eexists _, _. split.
    { erewrite py_bind_Ok; [| apply normal_run]. by rewrite py_ret_run. }
    split; [|done].
    apply wf3_reshape3. apply np_random_normal_length.
  - destruct (regularize_z_bounded D Y N w HN Hshape Hseeds)
      as (Zlist & w' & Hrun & Hall).
    eexists _, w'. split; [exact Hrun |]. split; [|done].
    by eapply wf3_stacked.
Qed.

End RegularizeZ.

(** ** The points [inverse] returns *)

(** The array [X] of [rotate_x] is well formed: every row has an entry for
    each row of [W]. *)
Lemma rotate_x_wf2 (Y : array2) (Z : array3) (W : array2) :
  wf2 Y -> wf3 Z -> dim0 Z = shape0 Y ->
  wf2 W -> shape0 W = (shape1 Y + dim1 Z)%nat ->
  wf2 (rotate_x Y Z W).1 /\ shape1 (rotate_x Y Z W).1 = shape0 W.
Proof.
  intros HY HZ Hdim HW HmW.
  pose proof (rotate_x_count Y Z W) as (HX0 & HXlen & _).
  assert (shape1 (rotate_x Y Z W).1 = shape0 W) as HX1.
  { unfold rotate_x. cbn [fst reshape2 shape1]. lia. }
  split; [|done]. split; [lia |]. rewrite HX1.
  apply Forall_lookup_2. intros i x Hx.
  assert (i < dim2 Z * shape0 Y)%nat as Hi.
  { rewrite <- HXlen. by eapply lookup_lt_Some. }
  rewrite rotate_x_row_at in Hx by done.
  injection Hx as <-. rewrite length_map. apply HW.
Qed.

Section InverseProperties.
Context `{External}.

(** C5: for a well-shaped [Y] with [R] rows, eigenvectors [W = [W1 | W2]]
    and an integer [N >= 0], [inverse(Y, N)] of the unbounded map and of the
    bounded map (every row having a seed) returns exactly [R * N] full-space
    points: [X] is a well-formed array of shape (R N, m), and its row at
    index [r N + k] is [W] applied to the coordinates [Y[r]] followed by the
    [k]-th draw [Z[r, :, k]] that [regularize_z] made for row [r].  The row
    index is a well-formed array of shape (R N, 1) that lists each row number
    [0 .. R-1] exactly [N] times, rows in order; its values are integers. *)
Theorem inverse_count (cls : map_class) (D : domain) (Y Y' : array2)
    (a b : nat) (N : Z) (w : world) :
  let S := dom_subspaces D in
  let m := shape0 (W1 S) in
  let n := shape1 (W1 S) in
  let R := shape0 Y' in
  process_inputs Y = Ok (Y', a, b) ->
  wf2 Y' -> shape1 Y' = n -> (0 <= N)%Z ->
  wf2 (W1 S) -> wf2 (W2 S) -> shape0 (W2 S) = m ->
  shape1 (W2 S) = (m - n)%nat -> (n <= m)%nat ->
  eigenvectors S = np_hstack (W1 S) (W2 S) ->
  cls = UnboundedActiveVariableMap \/
  (cls = BoundedActiveVariableMap /\
   Forall (fun y => exists z0, seed y (W1 S) (W2 S) = Ok z0) (rows Y')) ->
  exists (X ind : array2) (Zs : array3) (w' : world),
    inverse cls D Y (Some (PyInt N)) w = (Ok (X, ind), w') /\
    regularize_z cls D Y' N w = (Ok Zs, w') /\
    wf2 X /\ shape0 X = (R * Z.to_nat N)%nat /\ shape1 X = m /\
    length (rows X) = (R * Z.to_nat N)%nat /\
    (forall (r k : nat) (yr : vec),
       rows Y' !! r = Some yr -> (k < Z.to_nat N)%nat ->
       rows X !! (r * Z.to_nat N + k)%nat
       = Some (np_dot_mv (eigenvectors S) (yr ++ draw Zs r k)) /\
       rows ind !! (r * Z.to_nat N + k)%nat = Some [Qc_of_Z (Z.of_nat r)]) /\
    wf2 ind /\ shape0 ind = (R * Z.to_nat N)%nat /\ shape1 ind = 1%nat /\
    rows ind = map (fun x => [x]) (row_index R (Z.to_nat N)) /\
    ravel ind =
      flat_map (fun r => replicate (Z.to_nat N) (Qc_of_Z (Z.of_nat r))) (seq 0 R) /\
    (forall r, (r < R)%nat ->
       length (filter (fun x => x = Qc_of_Z (Z.of_nat r)) (ravel ind)) = Z.to_nat N).
Proof.
  intros S m n R Hin HY Hn HN HW1 HW2 Hm2 Hshape Hnm Hstack Hcls.
  destruct (regularize_z_wf cls D Y' N w HY HN Hshape Hcls)
    as (Zs & w' & Hrun & HZ & Hd0 & Hd1 & Hd2).
  fold S m n in Hd1.
  assert (wf2 (eigenvectors S)) as HW.
  { rewrite Hstack. apply wf2_hstack; [done | done | by symmetry]. }
  assert (shape0 (eigenvectors S) = (shape1 Y' + dim1 Zs)%nat) as HmW.
  { rewrite Hstack. cbn [np_hstack shape0]. fold m. lia. }
  pose proof (rotate_x_count Y' Zs (eigenvectors S)) as (HX0 & HXlen & Hind).
  pose proof (rotate_x_wf2 Y' Zs (eigenvectors S) HY HZ Hd0 HW HmW)
    as (HwfX & HX1).
  rewrite Hd2 in HX0, HXlen, Hind. fold R in HX0, HXlen, Hind.
  exists (rotate_x Y' Zs (eigenvectors S)).1,
    (rotate_x Y' Zs (eigenvectors S)).2, Zs, w'.
  split.
  { unfold inverse. cbn [default from_option].
    erewrite py_bind_Ok; [| unfold lift; rewrite Hin; reflexivity].
    cbn beta iota delta [id].
    rewrite (py_bind_Ok _ _ _ _ _ Hrun), py_ret_run.
    fold S. by destruct (rotate_x Y' Zs _). }
  split; [done |]. split; [done |]. split; [lia |].
  split; [rewrite HX1, HmW; lia |]. split; [lia |].
  rewrite Hind. cbn [shape0 shape1 rows].
  split.
  { intros r k yr Hyr Hk.
    assert (r < R)%nat as Hr.
    { destruct HY as [HlenY _]. unfold R. rewrite <- HlenY.
      by eapply lookup_lt_Some. }
    split.
    - rewrite <- Hd2 in Hk |- *.
      rewrite rotate_x_point by done.
      rewrite (nth_lookup_Some _ _ [] _ Hyr).
      unfold np_dot_mv. by rewrite map_dot_comm.
    - rewrite list_lookup_fmap, row_index_lookup by done. reflexivity. }
  split.
  { split; cbn [shape0 shape1 rows].
    - by rewrite length_map, length_row_index.
    - apply Forall_map, Forall_forall. done. }
  split; [lia |]. split; [done |]. split; [done |].
  assert (ravel (Arr2 (Z.to_nat N * R) 1
                   (map (fun x => [x]) (row_index R (Z.to_nat N))))
          = row_index R (Z.to_nat N)) as ->.
  { unfold ravel. cbn [rows].
    generalize (row_index R (Z.to_nat N)) as l.
    induction l as [|x l IH]; simpl; [done | by rewrite IH]. }
  split; [done |].
  intros r Hr. by apply count_row_index.
Qed.

End InverseProperties.

(** Two rows and two draws with the bounded map on the plane. *)
Lemma inverse_count_witness :
  let D := UnboundedActiveVariableDomain S_plane in
  exists (X ind : array2) (Zs : array3) (w' : world),
    inverse BoundedActiveVariableMap D Y_two (Some (PyInt 2)) world0
    = (Ok (X, ind), w') /\
    regularize_z BoundedActiveVariableMap D Y_two 2 world0 = (Ok Zs, w') /\
    wf2 X /\ shape0 X = (shape0 Y_two * Z.to_nat 2)%nat /\
    shape1 X = shape0 (W1 S_plane) /\
    length (rows X) = (shape0 Y_two * Z.to_nat 2)%nat /\
    (forall (r k : nat) (yr : vec),
       rows Y_two !! r = Some yr -> (k < Z.to_nat 2)%nat ->
       rows X !! (r * Z.to_nat 2 + k)%nat
       = Some (np_dot_mv (eigenvectors S_plane) (yr ++ draw Zs r k)) /\
       rows ind !! (r * Z.to_nat 2 + k)%nat = Some [Qc_of_Z (Z.of_nat r)]) /\
    wf2 ind /\ shape0 ind = (shape0 Y_two * Z.to_nat 2)%nat /\
    shape1 ind = 1%nat /\
    rows ind = map (fun x => [x]) (row_index (shape0 Y_two) (Z.to_nat 2)) /\
    ravel ind =
      flat_map (fun r => replicate (Z.to_nat 2) (Qc_of_Z (Z.of_nat r)))
        (seq 0 (shape0 Y_two)) /\
    (forall r, (r < shape0 Y_two)%nat ->
       length (filter (fun x => x = Qc_of_Z (Z.of_nat r)) (ravel ind)) = Z.to_nat 2).
Proof.
  apply (inverse_count BoundedActiveVariableMap
           (UnboundedActiveVariableDomain S_plane) Y_two Y_two 2 1 2 world0).
  - reflexivity.
  - split; [reflexivity | repeat constructor].
  - reflexivity.
  - lia.
  - apply wf2_col_of.
  - apply wf2_col_of.
  - reflexivity.
  - reflexivity.
  - simpl. lia.
  - reflexivity.
  - right. split; [reflexivity |].
    repeat constructor; eexists; reflexivity.
Defined.

(** ** Points of the bounded map lie in the cube *)

Lemma dot_app (u v r1 r2 : vec) :
  length u = length r1 -> dot (u ++ v) (r1 ++ r2) = dot u r1 + dot v r2.
Proof.
  revert r1. induction u as [|a u IH]; intros [|b r1] Hlen; simpl in *; try done.
  - unfold dot at 2. simpl. ring.
  - rewrite !dot_cons, IH by lia. ring.
Qed.

Lemma map_dot_hstack (u v : vec) (R1 R2 : list vec) :
  Forall (fun r => length r = length u) R1 ->
  map (dot (u ++ v)) (zip_with app R1 R2)
  = vadd (map (fun a => dot a u) R1) (map (fun a => dot a v) R2).
Proof.
  intros Hall. revert R2. unfold vadd.
  induction Hall as [|r1 R1 Hr1 _ IH]; intros [|r2 R2]; simpl; try done.
  rewrite IH, dot_app by done. f_equal.
  by rewrite (dot_comm u r1), (dot_comm v r2).
Qed.

Section InverseBounded.
Context `{External}.

(** With [W = [W1 | W2]] and feasible seeds, every full-space point that
    [inverse] of the bounded map returns has all its coordinates in
    [-1, 1]: the points lie in the hypercube the domain was built from. *)
Theorem inverse_bounded_in_cube (D : domain) (Y Y' : array2) (a b : nat)
    (N : Z) (w : world) :
  let S := dom_subspaces D in
  let m := shape0 (W1 S) in
  let n := shape1 (W1 S) in
  process_inputs Y = Ok (Y', a, b) ->
  wf2 Y' -> shape1 Y' = n -> (0 <= N)%Z ->
  wf2 (W1 S) -> wf2 (W2 S) -> shape0 (W2 S) = m ->
  shape1 (W2 S) = (m - n)%nat -> (n <= m)%nat ->
  eigenvectors S = np_hstack (W1 S) (W2 S) ->
  Forall (fun y => exists z0,
            seed y (W1 S) (W2 S) = Ok z0 /\
            (origin_inside m (np_dot_mv (W1 S) y) = false ->
             feasible (W1 S) (W2 S) y z0)) (rows Y') ->
  exists (X ind : array2) (w' : world),
    inverse BoundedActiveVariableMap D Y (Some (PyInt N)) w = (Ok (X, ind), w') /\
    length (rows X) = (shape0 Y' * Z.to_nat N)%nat /\
    Forall (Forall (fun t => - 1 <= t /\ t <= 1)) (rows X).
Proof.
  intros S m n Hin HY Hn HN HW1 HW2 Hm2 Hshape Hnm Hstack Hseeds.
  destruct (regularize_z_bounded D Y' N w HN Hshape) as (Zlist & w' & Hrun & Hall).
  { eapply List.Forall_impl; [|exact Hseeds]. intros y (z0 & Hz0 & _). eauto. }
  fold S m n in Hrun.
  set (Z := Arr3 (shape0 Y') (m - n) (Z.to_nat N) (map rows Zlist)) in *.
  pose proof (wf3_stacked _ _ _ _ HY Hall) as HZ. fold m n Z in HZ.
  assert (wf2 (eigenvectors S)) as HW.
  { rewrite Hstack. apply wf2_hstack; [done | done | by symmetry]. }
  assert (shape0 (eigenvectors S) = (shape1 Y' + dim1 Z)%nat) as HmW.
  { rewrite Hstack. cbn [np_hstack shape0 dim1 Z]. fold m. lia. }
  pose proof (rotate_x_count Y' Z (eigenvectors S)) as (_ & HXlen & _).
  cbn [dim2 Z] in HXlen.
  exists (rotate_x Y' Z (eigenvectors S)).1, (rotate_x Y' Z (eigenvectors S)).2, w'.
  split.
  { unfold inverse. cbn [default from_option].
    erewrite py_bind_Ok; [| unfold lift; rewrite Hin; reflexivity].
    cbn beta iota delta [id].
    rewrite (py_bind_Ok _ _ _ _ _ Hrun), py_ret_run.
    fold S. by destruct (rotate_x Y' Z _). }
  split; [lia |].
  apply Forall_lookup_2. intros i x Hx.
  assert (i < dim2 Z * shape0 Y')%nat as Hi.
  { cbn [dim2 Z]. rewrite <- HXlen. by eapply lookup_lt_Some. }
  rewrite rotate_x_row_at in Hx by done.
  injection Hx as <-.
  cbn [dim2 Z] in *.
  set (r := (i / Z.to_nat N)%nat). set (k := (i mod Z.to_nat N)%nat).
  assert (Z.to_nat N <> 0)%nat as HN0 by lia.
  assert (k < Z.to_nat N)%nat as Hk by (apply Nat.mod_upper_bound; lia).
  assert (r < shape0 Y')%nat as Hr by (apply Nat.Div0.div_lt_upper_bound; lia).
  destruct HY as [HlenY HrowsY].
  destruct (lookup_lt_is_Some_2 (rows Y') r) as [yr Hyr]; [lia |].
  rewrite (nth_lookup_Some _ _ [] _ Hyr).
  destruct (Forall2_lookup_l _ _ _ _ _ Hall Hyr) as (Zy & HZy & Hsampled).
  destruct Hsampled as (HwfZy & Hs0 & Hs1 & z0 & Hz0 & Hcols).
  assert (draw Z r k = column k Zy) as ->.
  { unfold draw, column. cbn [planes Z].
    by rewrite (nth_lookup_Some (map rows Zlist) r [] (rows Zy))
      by (by rewrite list_lookup_fmap, HZy). }
  assert (length yr = n) as Hlyr.
  { eapply Forall_lookup_1 in HrowsY; eauto. lia. }
  rewrite Hstack. cbn [np_hstack rows].
  rewrite map_dot_hstack.
  2:{ destruct HW1 as [_ HrowsW1].
      eapply List.Forall_impl; [|exact HrowsW1].
      intros r1 Hr1. cbv beta. rewrite Hlyr. exact Hr1. }
  change (feasible (W1 S) (W2 S) yr (column k Zy)).
  destruct (Hcols k Hk) as (steps & g & ->).
  apply chain_feasible.
  rewrite Forall_forall in Hseeds.
  destruct (Hseeds yr) as (z0' & Hz0' & Hfeas).
  { apply list_elem_of_In. by eapply list_elem_of_lookup_2. }
  assert (z0' = z0) as ->.
  { unfold S in *. rewrite Hz0 in Hz0'. by injection Hz0'. }
  destruct (origin_inside m (np_dot_mv (W1 S) yr)) eqn:Horigin; [|auto].
  unfold seed in Hz0. unfold m, S in Horigin. rewrite Horigin in Hz0.
  injection Hz0 as <-. by apply seed_origin_feasible.
Qed.

End InverseBounded.

Lemma inverse_bounded_in_cube_witness :
  exists (X ind : array2) (w' : world),
    inverse BoundedActiveVariableMap (UnboundedActiveVariableDomain S_plane)
      Y_two (Some (PyInt 2)) world0 = (Ok (X, ind), w') /\
    length (rows X) = (shape0 Y_two * Z.to_nat 2)%nat /\
    Forall (Forall (fun t => - 1 <= t /\ t <= 1)) (rows X).
Proof.
  apply (inverse_bounded_in_cube (UnboundedActiveVariableDomain S_plane)
           Y_two Y_two 2 1 2 world0).
  - reflexivity.
  - split; [reflexivity | repeat constructor].
  - reflexivity.
  - lia.
  - apply wf2_col_of.
  - apply wf2_col_of.
  - reflexivity.
  - reflexivity.
  - simpl. lia.
  - reflexivity.
  - repeat constructor; eexists; (split; [reflexivity |]);
      intros Hout; vm_compute in Hout; discriminate Hout.
Defined.

(** ** [forward] after [inverse] *)

(** Projecting the point [W·v] on the first columns of an orthogonal
    [W = [W1 | W2]] gives the first entries of [v]. *)
Lemma project_on_W1 (W W1 W2 : array2) (yr zc : vec) :
  orthogonal W -> W = np_hstack W1 W2 ->
  wf2 W1 -> wf2 W2 -> shape0 W1 = shape0 W2 ->
  length yr = shape1 W1 -> length zc = shape1 W2 ->
  map (fun j => dot (map (dot (yr ++ zc)) (rows W)) (column j W1))
    (seq 0 (shape1 W1)) = yr.
Proof.
  intros Horth Hstack HW1 HW2 Hsh Hyr Hzc.
  transitivity (map (fun j => nth j (yr ++ zc) 0) (seq 0 (length yr)));
    [| apply take_by_nth].
  rewrite Hyr.
  apply map_ext_in. intros j Hj%in_seq.
  rewrite <- (column_hstack_l W1 W2) by (done || lia).
  rewrite <- Hstack.
  apply dot_orthogonal; [done | | ].
  - rewrite length_app, Hstack. cbn [np_hstack shape1]. lia.
  - rewrite Hstack. cbn [np_hstack shape1]. lia.
Qed.

Section ForwardInverse.
Context `{External}.

(** For an orthogonal [W = [W1 | W2]] and a [process_inputs] that accepts
    2-D arrays as they are, [forward] undoes [inverse] on the active
    variables: of the points [inverse(Y, N)] returns, the one at index
    [r N + k] projects on [W1] to row [r] of [Y], for the unbounded map and
    for the bounded map whose rows have seeds. *)
Theorem forward_inverse (cls : map_class) (D : domain) (Y : array2) (N : Z)
    (w : world) :
  let S := dom_subspaces D in
  let m := shape0 (W1 S) in
  let n := shape1 (W1 S) in
  (forall A : array2, process_inputs A = Ok (A, shape0 A, shape1 A)) ->
  wf2 Y -> shape1 Y = n -> (0 <= N)%Z ->
  wf2 (W1 S) -> wf2 (W2 S) -> shape0 (W2 S) = m ->
  shape1 (W2 S) = (m - n)%nat -> (n <= m)%nat ->
  eigenvectors S = np_hstack (W1 S) (W2 S) ->
  orthogonal (eigenvectors S) ->
  cls = UnboundedActiveVariableMap \/
  (cls = BoundedActiveVariableMap /\
   Forall (fun y => exists z0, seed y (W1 S) (W2 S) = Ok z0) (rows Y)) ->
  exists (X ind Yf Zf : array2) (w' : world),
    inverse cls D Y (Some (PyInt N)) w = (Ok (X, ind), w') /\
    forward D X = Ok (Yf, Zf) /\
    forall (r k : nat) (yr : vec),
      rows Y !! r = Some yr -> (k < Z.to_nat N)%nat ->
      rows Yf !! (r * Z.to_nat N + k)%nat = Some yr.
Proof.
  intros S m n Hproc HY Hn HN HW1 HW2 Hm2 Hshape Hnm Hstack Horth Hcls.
  (* the inactive coordinates, well-shaped in both maps *)
  assert (exists (Z : array3) (w' : world),
            regularize_z cls D Y N w = (Ok Z, w') /\
            wf3 Z /\ dim0 Z = shape0 Y /\ dim1 Z = (m - n)%nat /\
            dim2 Z = Z.to_nat N) as (Z & w' & Hrun & HZ & Hd0 & Hd1 & Hd2).
  { destruct Hcls as [-> | [-> Hseeds]].
    - unfold regularize_z. fold S m n. rewrite decide_False by lia.
      eexists _, _. split.
      { erewrite py_bind_Ok; [| apply normal_run]. by rewrite py_ret_run. }
      split; [|done].
      apply wf3_reshape3. apply np_random_normal_length.
    - destruct (regularize_z_bounded D Y N w HN Hshape Hseeds)
        as (Zlist & w' & Hrun & Hall).
      eexists _, w'. split; [exact Hrun |]. split; [|done].
      by eapply wf3_stacked. }
  assert (wf2 (eigenvectors S)) as HW.
  { rewrite Hstack. apply wf2_hstack; [done | done | by symmetry]. }
  assert (shape0 (eigenvectors S) = (shape1 Y + dim1 Z)%nat) as HmW.
  { rewrite Hstack. cbn [np_hstack shape0]. fold m. lia. }
  set (X := (rotate_x Y Z (eigenvectors S)).1).
  exists X, (rotate_x Y Z (eigenvectors S)).2,
    (np_dot X (W1 S)), (np_dot X (W2 S)), w'.
  split.
  { unfold inverse. cbn [default from_option].
    erewrite py_bind_Ok; [| unfold lift; rewrite Hproc; reflexivity].
    cbn beta iota delta [id].
    rewrite (py_bind_Ok _ _ _ _ _ Hrun), py_ret_run.
    fold S. unfold X. by destruct (rotate_x Y Z _). }
  split.
  { unfold forward. fold S. by rewrite Hproc. }
  intros r k yr Hyr Hk.
  assert (r < shape0 Y)%nat as Hr.
  { destruct HY as [HlenY _]. rewrite <- HlenY. by eapply lookup_lt_Some. }
  rewrite <- Hd2 in Hk |- *.
  pose proof (rotate_x_point Y Z (eigenvectors S) r k HY HZ Hd0 HW HmW Hr Hk)
    as Hpoint.
  fold X in Hpoint.
  rewrite (nth_lookup_Some _ _ [] _ Hyr) in Hpoint.
  unfold np_dot; cbn [rows]. rewrite list_lookup_fmap, Hpoint.
  cbn [fmap option_fmap option_map]. f_equal.
  apply (project_on_W1 (eigenvectors S) (W1 S) (W2 S));
    [exact Horth | exact Hstack | exact HW1 | exact HW2 | by symmetry | |].
  - destruct HY as [_ HrowsY]. eapply Forall_lookup_1 in HrowsY; eauto.
    rewrite HrowsY. exact Hn.
  - unfold draw. rewrite length_map.
    destruct HZ as [HlenZ HplanesZ]. rewrite Forall_forall in HplanesZ.
    rewrite Hshape, <- Hd1. apply HplanesZ, nth_In. lia.
Qed.

End ForwardInverse.

Lemma forward_inverse_witness :
  let D := UnboundedActiveVariableDomain S_plane in
  exists (X ind Yf Zf : array2) (w' : world),
    inverse UnboundedActiveVariableMap D Y_two (Some (PyInt 2)) world0
    = (Ok (X, ind), w') /\
    forward D X = Ok (Yf, Zf) /\
    forall (r k : nat) (yr : vec),
      rows Y_two !! r = Some yr -> (k < Z.to_nat 2)%nat ->
      rows Yf !! (r * Z.to_nat 2 + k)%nat = Some yr.
Proof.
  apply (forward_inverse UnboundedActiveVariableMap
           (UnboundedActiveVariableDomain S_plane) Y_two 2 world0).
  - intros A. reflexivity.
  - split; [reflexivity | repeat constructor].
  - reflexivity.
  - lia.
  - apply wf2_col_of.
  - apply wf2_col_of.
  - reflexivity.
  - reflexivity.
  - simpl. lia.
  - reflexivity.
  - apply orthogonal_W_plane.
  - by left.
Defined.
